(** * lite_migrate: dependency ordering and execution of migrations

    A shallow embedding of [lite_migrate/_scripts/migrate.py] and of the two
    built-in steps of [lite_migrate/steps], with the properties of the
    ordering function [_check_for_cycles_and_order], of the execution loop
    [_execute_migrations] and of the coordinator [main]. *)

From stdpp Require Import base relations gmap sets list strings.
From Stdlib Require Import Lia.

Local Open Scope string_scope.
Local Open Scope list_scope.

Set Warnings "-clear-no-such-hyp".

(** ** Exceptions and results *)

(** The exceptions the modelled code can raise.  [DatabaseError] stands for
    whatever the sqlite3 driver or a migration's own callable raises. *)
Inductive exn : Type :=
  | ForbiddenMigrationName
  | DependencyCycle
  | AssertionError
  | AttributeError
  | TypeError
  | KeyError (key : string)
  | RecursionError
  | DatabaseError (msg : string).

Inductive result (A : Type) : Type :=
  | Ok (a : A)
  | Raise (e : exn).
Arguments Ok {A} a.
Arguments Raise {A} e.

(** ** Constants of migrate.py *)

Definition LM_MIGRATIONS_TABLE : string := "_lm_migrations".
Definition LM_MIGRATIONS_SCHEMA : string :=
  "(
    migration_name TEXT PRIMARY KEY,  -- Name of migration module / standard identifier
    migration_dt INTEGER -- UNIX timestamp of when the migration was executed
)".
Definition LM_INITIAL_NAME : string := "initial".
Definition LM_LATEST_ALIAS : string := "latest".

(** ** The adjacency dictionary

    [aj] is a [defaultdict(list)]: a lookup of an absent key yields the
    empty list.  (The empty list Python stores under the key on such a miss
    is invisible to every later lookup, so the lookup is modelled as pure.) *)

Definition aj_get (aj : gmap string (list string)) (n : string) : list string :=
  default [] (aj !! n).

(** [aj[dm].append(m_name)] *)
Definition aj_append (aj : gmap string (list string)) (dm m_name : string)
  : gmap string (list string) :=
  <[dm := aj_get aj dm ++ [m_name]]> aj.

(** ** Topological ordering: [_check_for_cycles_and_order] *)

Module Order.

(** The three locals of [_check_for_cycles_and_order] that [_visit] mutates. *)
Record visit_state : Type := VisitState {
  nodes_seen : gset string;
  cycle_check_set : gset string;
  node_ordering : list string
}.

Definition initial_state : visit_state :=
  {| nodes_seen := ∅; cycle_check_set := ∅; node_ordering := [] |}.

(** A [for x in xs: body(x)] loop whose body may raise.  [None] is the
    exhaustion of the recursion budget of the body. *)
Definition for_each {A S : Type} (body : A → S → option (result S))
  : list A → S → option (result S) :=
  fix go (xs : list A) (s : S) : option (result S) :=
    match xs with
    | [] => Some (Ok s)
    | x :: xs' =>
        match body x s with
        | Some (Ok s') => go xs' s'
        | r => r
        end
    end.

(** [_visit(n)].  The Python function is recursive through the loop over
    [aj[n]]; [depth] bounds the nesting of calls and [None] means the bound
    was reached.  [cycle_check_set.remove(n)] raises [KeyError] when [n] is
    not in the set. *)
Fixpoint _visit (depth : nat) (aj : gmap string (list string)) (n : string)
    (st : visit_state) : option (result visit_state) :=
  match depth with
  | O => None
  | S depth' =>
      if decide (n ∈ nodes_seen st) then Some (Ok st)
      else if decide (n ∈ cycle_check_set st) then Some (Raise DependencyCycle)
      else
        let st1 := {| nodes_seen := nodes_seen st;
                      cycle_check_set := {[n]} ∪ cycle_check_set st;
                      node_ordering := node_ordering st |} in
        match for_each (_visit depth' aj) (aj_get aj n) st1 with
        | Some (Ok st2) =>
            if decide (n ∈ cycle_check_set st2) then
              Some (Ok {| nodes_seen := {[n]} ∪ nodes_seen st2;
                          cycle_check_set := cycle_check_set st2 ∖ {[n]};
                          node_ordering := n :: node_ordering st2 |})
            else Some (Raise (KeyError n))
        | r => r
        end
  end.

(** Every name a traversal can meet: the keys of the migration dictionary
    and the names listed in the adjacency dictionary. *)
Definition graph_nodes (keys : list string) (aj : gmap string (list string))
  : gset string :=
  list_to_set keys ∪ ⋃ (list_to_set <$> (map_to_list aj).*2).

(** [_check_for_cycles_and_order(migrations, aj)], on the keys of
    [migrations] in insertion order.  [rem_nodes.pop()] takes the last
    remaining key, so the keys are visited from the last to the first.  The
    nesting of [_visit] is given one level more than there are names. *)
Definition _check_for_cycles_and_order_at (depth : nat) (keys : list string)
    (aj : gmap string (list string)) : option (result (list string)) :=
  match for_each (_visit depth aj) (reverse keys) initial_state with
  | Some (Ok st) => Some (Ok (node_ordering st))
  | Some (Raise e) => Some (Raise e)
  | None => None
  end.

Definition _check_for_cycles_and_order (keys : list string)
    (aj : gmap string (list string)) : option (result (list string)) :=
  _check_for_cycles_and_order_at (S (size (graph_nodes keys aj))) keys aj.

End Order.

(** ** The state-and-exception monad of the imperative code

    A computation reads and updates a state and either returns a value or
    raises; what it did to the state before raising stays done. *)

Definition M (S A : Type) : Type := S → result A * S.

Definition ret {S A : Type} (a : A) : M S A := λ s, (Ok a, s).
Definition raise {S A : Type} (e : exn) : M S A := λ s, (Raise e, s).
Definition bind {S A B : Type} (m : M S A) (k : A → M S B) : M S B :=
  λ s, match m s with
       | (Ok a, s') => k a s'
       | (Raise e, s') => (Raise e, s')
       end.

Declare Scope py_scope.
Delimit Scope py_scope with py.
Notation "x <- m ;; k" := (bind m (λ x, k))
  (at level 100, m at next level, k at level 200, right associativity,
   only parsing) : py_scope.
Notation "m ;; k" := (bind m (λ _, k))
  (at level 100, k at level 200, right associativity, only parsing) : py_scope.
Local Open Scope py_scope.

(** [for x in xs: body(x)] *)
Fixpoint mfor {S A : Type} (body : A → M S unit) (xs : list A) : M S unit :=
  match xs with
  | [] => ret ()
  | x :: xs' => body x ;; mfor body xs'
  end.

(** ** Python values passed to a step, and dictionaries *)

Inductive pyval : Type :=
  | PyNone
  | PyBool (b : bool)
  | PyInt (z : Z)
  | PyStr (s : string)
  | PyCursor (c : nat).

(** Truth value of an object, as [assert x] and [if x] test it. *)
Definition truthy (v : pyval) : bool :=
  match v with
  | PyNone => false
  | PyBool b => b
  | PyInt z => negb (Z.eqb z 0)
  | PyStr s => negb (String.eqb s "")
  | PyCursor _ => true
  end.

(** [kwargs.get(key)]: [None] when the key is absent. *)
Definition kwargs_get (kwargs : gmap string pyval) (key : string) : pyval :=
  default PyNone (kwargs !! key).

(** A [dict] with string keys, in insertion order. *)
Fixpoint dict_set {V : Type} (k : string) (v : V) (d : list (string * V))
  : list (string * V) :=
  match d with
  | [] => [(k, v)]
  | (k', v') :: d' =>
      if decide (k = k') then (k, v) :: d' else (k', v') :: dict_set k v d'
  end.

Fixpoint dict_get {V : Type} (k : string) (d : list (string * V)) : option V :=
  match d with
  | [] => None
  | (k', v') :: d' => if decide (k = k') then Some v' else dict_get k d'
  end.

Definition dict_keys {V : Type} (d : list (string * V)) : list string := d.*1.

(** ** The database connection *)

(** What the sqlite3 driver does with one statement and with a commit: the
    new database and the exception raised, if any. *)
Class Sqlite (DB : Type) : Type := {
  sql_execute : string → DB → DB * option exn;
  sql_commit : DB → DB * option exn
}.

(** The calls that the code of migrate.py and of the two built-in steps
    makes, in the order it makes them: on the connection, on a cursor, or
    of the callable of a [PythonStep].  What a callable does in its turn
    with the cursor it is handed is the callable's own code, not itemised
    here: the trace has its call, and [callable_run] its whole effect. *)
Inductive event : Type :=
  | Cursor (c : nat)                      (* conn.cursor() returned cursor c *)
  | Execute (c : nat) (sql : string)      (* c.execute(sql) *)
  | Invoke (name : string) (args : list pyval) (kwargs : gmap string pyval)
                                          (* a step's callable was called *)
  | Commit.                               (* conn.commit() *)

Record Conn (DB : Type) : Type := MkConn {
  db : DB;
  cursors : nat;            (* number of cursors handed out so far *)
  trace : list event
}.
Arguments MkConn {DB} db cursors trace.
Arguments db {DB} c.
Arguments cursors {DB} c.
Arguments trace {DB} c.

(** A Python function wrapped by a [PythonStep]: its name and what a call
    does to the database, the statements it executes on the cursor among
    its keyword arguments included, with the exception it ends in. *)
Record Callable (DB : Type) : Type := MkCallable {
  callable_name : string;
  callable_run : list pyval → gmap string pyval → DB → DB * option exn
}.
Arguments MkCallable {DB} callable_name callable_run.
Arguments callable_name {DB} c.
Arguments callable_run {DB} c args kwargs d.

(** The two built-in subclasses of [BaseStep]. *)
Inductive Step (DB : Type) : Type :=
  | SQLStep (_sql : string)
  | PythonStep (_callable : Callable DB).
Arguments SQLStep {DB} _sql.
Arguments PythonStep {DB} _callable.

(** A migration module as [main] and [_execute_migrations] read it once
    it is loaded: the steps of [up] and of [down] and the keys of [aj] it
    is listed under ([[]] when the module does not define [depends_on]).
    The attributes of the module itself, which [_validate_migration]
    inspects, are those of [Validate] below. *)
Record Migration (DB : Type) : Type := MkMigration {
  up : list (Step DB);
  down : list (Step DB);
  depends_on : list string
}.
Arguments MkMigration {DB} up down depends_on.
Arguments up {DB} m.
Arguments down {DB} m.
Arguments depends_on {DB} m.

Section Engine.
Context {DB : Type} `{!Sqlite DB}.

Definition emit (ev : event) : M (Conn DB) unit :=
  λ c, (Ok (), MkConn (db c) (cursors c) (trace c ++ [ev])).

(** Runs a driver operation on the database. *)
Definition driver (op : DB → DB * option exn) : M (Conn DB) unit :=
  λ c, let '(d, oe) := op (db c) in
       (match oe with None => Ok () | Some e => Raise e end,
        MkConn d (cursors c) (trace c)).

(** [conn.cursor()] *)
Definition conn_cursor : M (Conn DB) nat :=
  λ c, (Ok (cursors c),
        MkConn (db c) (S (cursors c)) (trace c ++ [Cursor (cursors c)])).

(** [cur.execute(sql)] *)
Definition cursor_execute (cur : nat) (sql : string) : M (Conn DB) unit :=
  emit (Execute cur sql) ;; driver (sql_execute sql).

(** [conn.commit()] *)
Definition conn_commit : M (Conn DB) unit :=
  emit Commit ;; driver sql_commit.

(** [SQLStep.__call__(self, *args, **kwargs)] *)
Definition SQLStep_call (_sql : string) (args : list pyval)
    (kwargs : gmap string pyval) : M (Conn DB) unit :=
  let cur := kwargs_get kwargs "cur" in
  if truthy cur then
    match cur with
    | PyCursor c => cursor_execute c _sql
    | _ => raise AttributeError
    end
  else raise AssertionError.

(** [PythonStep.__call__(self, *args, **kwargs)]: the assertion on [cur],
    then the call of the callable with the arguments as they came.  The
    call is what this method does; the statements the callable executes
    on the cursor are in [callable_run]. *)
Definition PythonStep_call (_callable : Callable DB) (args : list pyval)
    (kwargs : gmap string pyval) : M (Conn DB) unit :=
  if truthy (kwargs_get kwargs "cur") then
    emit (Invoke (callable_name _callable) args kwargs) ;;
    driver (callable_run _callable args kwargs)
  else raise AssertionError.

(** A call of a step with positional and keyword arguments, dispatched on
    the class of the step. *)
Definition step_call (step : Step DB) (args : list pyval)
    (kwargs : gmap string pyval) : M (Conn DB) unit :=
  match step with
  | SQLStep _sql => SQLStep_call _sql args kwargs
  | PythonStep _callable => PythonStep_call _callable args kwargs
  end.

(** The body of the inner loop of [_execute_migrations]:
    [step(cur=conn.cursor())] then [conn.commit()]. *)
Definition execute_step (step : Step DB) : M (Conn DB) unit :=
  c <- conn_cursor ;;
  step_call step [] {["cur" := PyCursor c]} ;;
  conn_commit.

(** The body of the outer loop: the up-steps of
    [migrations[to_execute.pop(0)]]. *)
Definition execute_migration (migrations : list (string * Migration DB))
    (name : string) : M (Conn DB) unit :=
  match dict_get name migrations with
  | None => raise (KeyError name)
  | Some m => mfor execute_step (up m)
  end.

(** [_execute_migrations(conn, migrations, migrations_order)] *)
Definition _execute_migrations (migrations : list (string * Migration DB))
    (migrations_order : list string) : M (Conn DB) unit :=
  mfor (execute_migration migrations) migrations_order.

End Engine.


(** * Validation of a loaded module: [_validate_migration] *)

Module Validate.

Set Warnings "-register-all".

(** The objects an attribute of a migration module is taken to hold. *)
Inductive pyobj (DB : Type) : Type :=
  | ONone
  | OInt (z : Z)
  | OStr (s : string)
  | OList (xs : list (pyobj DB))
  | OTuple (xs : list (pyobj DB))
  | OSet (xs : list (pyobj DB))
  | OFrozenSet (xs : list (pyobj DB))
  | OStep (step : Step DB).
Arguments ONone {DB}.
Arguments OInt {DB} z.
Arguments OStr {DB} s.
Arguments OList {DB} xs.
Arguments OTuple {DB} xs.
Arguments OSet {DB} xs.
Arguments OFrozenSet {DB} xs.
Arguments OStep {DB} step.

(** What a validation comes to: it returns, or one of its [assert]s or
    the iteration of its [for] raises. *)
Inductive raised : Type := VAssertionError | VTypeError.

Inductive verdict : Type :=
  | Passes
  | Raises (e : raised).

Section Validate.
Context {DB : Type}.

(** [isinstance(o, frozenset)], [list], [set] or [tuple]. *)
Definition is_collection (o : pyobj DB) : bool :=
  match o with
  | OFrozenSet _ | OList _ | OSet _ | OTuple _ => true
  | _ => false
  end.

(** [isinstance(o, BaseStep)] *)
Definition is_step (o : pyobj DB) : bool :=
  match o with
  | OStep _ => true
  | _ => false
  end.

(** The elements [for u in o] goes through; [None] when [o] is not
    iterable.  A string yields its characters, each a string. *)
Definition elements (o : pyobj DB) : option (list (pyobj DB)) :=
  match o with
  | OList xs | OTuple xs | OSet xs | OFrozenSet xs => Some xs
  | OStr s => Some ((λ a, OStr (String a EmptyString)) <$> String.list_ascii_of_string s)
  | ONone | OInt _ | OStep _ => None
  end.

(** [for u in o: assert isinstance(u, BaseStep)] *)
Definition assert_steps (o : pyobj DB) : verdict :=
  match elements o with
  | None => Raises VTypeError
  | Some xs => if forallb is_step xs then Passes else Raises VAssertionError
  end.

(** [_validate_migration(migration)], on the attributes of the module. *)
Definition _validate_migration (migration : gmap string (pyobj DB)) : verdict :=
  match migration !! "up" with
  | None => Raises VAssertionError
  | Some up_ =>
      match migration !! "down" with
      | None => Raises VAssertionError
      | Some down_ =>
          if is_collection (default (OList []) (migration !! "depends_on")) then
            match assert_steps up_ with
            | Passes => assert_steps down_
            | r => r
            end
          else Raises VAssertionError
      end
  end.

(** ** Reading a module as the record the coordinator works on *)

Definition as_step (o : pyobj DB) : option (Step DB) :=
  match o with
  | OStep step => Some step
  | _ => None
  end.

Definition as_name (o : pyobj DB) : option string :=
  match o with
  | OStr s => Some s
  | _ => None
  end.

(** The steps an attribute holds, when it is an iterable of steps. *)
Definition as_steps (o : pyobj DB) : option (list (Step DB)) :=
  xs ← elements o; mapM as_step xs.

(** [getattr(migration, "depends_on", [])] *)
Definition get_depends_on (migration : gmap string (pyobj DB)) : pyobj DB :=
  default (OList []) (migration !! "depends_on").

(** The module as a [Migration], when it has [up] and [down] steps and a
    collection of names to depend on. *)
Definition as_migration (migration : gmap string (pyobj DB))
  : option (Migration DB) :=
  up_ ← migration !! "up";
  down_ ← migration !! "down";
  ups ← as_steps up_;
  downs ← as_steps down_;
  deps ← (if is_collection (get_depends_on migration)
          then elements (get_depends_on migration) else None);
  names ← mapM as_name deps;
  Some (MkMigration ups downs names).

(** The attributes of the module a [Migration] stands for. *)
Definition of_migration (m : Migration DB) : gmap string (pyobj DB) :=
  <["up" := OList (OStep <$> up m)]>
    (<["down" := OList (OStep <$> down m)]>
       (<["depends_on" := OList (OStr <$> depends_on m)]> ∅)).

End Validate.
End Validate.
(** ** Loading: the loop of [main] over the migrations folder *)

(** One name of [os.listdir(migrations_folder)] after [os.path.splitext],
    with what importing the file of that name does: the exception the
    execution of the module raises, if any, and the attributes the module
    object then has. *)
Record DirEntry (DB : Type) : Type := MkDirEntry {
  m_name : string;
  m_ext : string;
  m_import : option exn;
  m_attrs : gmap string (Validate.pyobj DB)
}.
Arguments MkDirEntry {DB} m_name m_ext m_import m_attrs.
Arguments m_name {DB} d.
Arguments m_ext {DB} d.
Arguments m_import {DB} d.
Arguments m_attrs {DB} d.

(** The locals [migrations], [aj] and [roots] of [main].  The dictionary
    holds each module as what the code after validation reads of it: its
    steps and the keys it depends on. *)
Record Loaded (DB : Type) : Type := MkLoaded {
  migrations : list (string * Migration DB);
  aj : gmap string (list string);
  roots : list string
}.
Arguments MkLoaded {DB} migrations aj roots.
Arguments migrations {DB} l.
Arguments aj {DB} l.
Arguments roots {DB} l.

Section Load.
Import Validate.
Context {DB : Type}.

(** The test that skips non-Python files, [__init__] and the like. *)
Definition skipped (e : DirEntry DB) : bool :=
  negb (String.eqb (m_ext e) ".py")
  || String.prefix "." (m_name e)
  || String.prefix "__" (m_name e).

(** Whether [aj[o]] can be evaluated: lists and sets are not hashable, a
    tuple is when its elements are. *)
Fixpoint hashable (o : pyobj DB) : bool :=
  match o with
  | OList _ | OSet _ => false
  | OTuple xs => forallb hashable xs
  | ONone | OInt _ | OStr _ | OFrozenSet _ | OStep _ => true
  end.

(** The key of [aj] a dependency stands for.  [aj] is only ever looked up
    under names of files: [_visit] is called on the keys of [migrations]
    and on the names listed in [aj], and both are names [os.listdir]
    gave.  Python keeps an entry of its own for each dependency that is
    no string; none of them is ever read, and they are filed here under
    one key that no file name can equal. *)
Definition dep_key (o : pyobj DB) : string :=
  match o with
  | OStr s => s
  | _ => "/"
  end.

(** The elements of [getattr(module, "depends_on", [])] when it is a
    collection. *)
Definition declared (attrs : gmap string (pyobj DB)) : list (pyobj DB) :=
  if is_collection (get_depends_on attrs)
  then default [] (elements (get_depends_on attrs))
  else [].

(** The steps among the elements of an attribute. *)
Definition read_steps (o : option (pyobj DB)) : list (Step DB) :=
  omap as_step (default [] (o ≫= elements)).

(** What the code after validation reads of a module. *)
Definition read_module (attrs : gmap string (pyobj DB)) : Migration DB :=
  MkMigration (read_steps (attrs !! "up")) (read_steps (attrs !! "down"))
              (dep_key <$> declared attrs).

Definition m_mod (e : DirEntry DB) : Migration DB := read_module (m_attrs e).

(** [_load_migration(migrations, migrations_folder, m_name)]: the module
    is entered in the dictionary, then executed. *)
Definition _load_migration (e : DirEntry DB) : M (Loaded DB) unit :=
  λ l, (match m_import e with None => Ok () | Some err => Raise err end,
        MkLoaded (dict_set (m_name e) (m_mod e) (migrations l)) (aj l) (roots l)).

(** [_validate_migration(migrations[m_name])] *)
Definition validate (e : DirEntry DB) : M (Loaded DB) unit :=
  match _validate_migration (m_attrs e) with
  | Passes => ret ()
  | Raises VAssertionError => raise AssertionError
  | Raises VTypeError => raise TypeError
  end.

(** [if not depends_on: roots.append(m_name)] *)
Definition add_root (e : DirEntry DB) : M (Loaded DB) unit :=
  λ l, (Ok (),
        MkLoaded (migrations l) (aj l)
                 (match declared (m_attrs e) with
                  | [] => roots l ++ [m_name e]
                  | _ => roots l
                  end)).

(** [aj[dm].append(m_name)] *)
Definition add_edge (name : string) (dm : pyobj DB) : M (Loaded DB) unit :=
  if hashable dm
  then λ l, (Ok (), MkLoaded (migrations l) (aj_append (aj l) (dep_key dm) name)
                             (roots l))
  else raise TypeError.

(** The body of the loop over the folder. *)
Definition load_entry (e : DirEntry DB) : M (Loaded DB) unit :=
  if skipped e then ret ()
  else if String.eqb (m_name e) LM_LATEST_ALIAS then raise ForbiddenMigrationName
  else
    _load_migration e ;;
    validate e ;;
    add_root e ;;
    mfor (add_edge (m_name e)) (declared (m_attrs e)).

Definition load_migrations (listing : list (DirEntry DB)) : M (Loaded DB) unit :=
  mfor load_entry listing.

Definition no_migrations : Loaded DB := MkLoaded [] ∅ [].

End Load.

(** ** The coordinator: [main] *)

Definition WAL_MODE : string := "PRAGMA journal_mode=WAL".
Definition NO_AUTOCHECKPOINT : string := "PRAGMA wal_autocheckpoint=0".
Definition BEGIN_IMMEDIATE : string := "BEGIN IMMEDIATE".
Definition CREATE_TABLE : string :=
  "CREATE TABLE IF NOT EXISTS " +:+ LM_MIGRATIONS_TABLE +:+ " " +:+ LM_MIGRATIONS_SCHEMA.
Definition CHECKPOINT : string := "PRAGMA wal_checkpoint(TRUNCATE)".
Definition DELETE_MODE : string := "PRAGMA journal_mode=DELETE".

Section Main.
Context {DB : Type} `{!Sqlite DB}.

(** The ordering of the loaded migrations.  The depth given to [_visit]
    is never reached (see [OrderFacts.check_total] below). *)
Definition order_migrations (l : Loaded DB) : M (Conn DB) (list string) :=
  match Order._check_for_cycles_and_order (dict_keys (migrations l)) (aj l) with
  | Some (Ok order) => ret order
  | Some (Raise e) => raise e
  | None => raise RecursionError
  end.

(** The first statements of [main]: the cursor, WAL mode without
    automatic checkpoints, the lock and the bookkeeping table. *)
Definition prologue : M (Conn DB) nat :=
  cur <- conn_cursor ;;
  cursor_execute cur WAL_MODE ;;
  cursor_execute cur NO_AUTOCHECKPOINT ;;
  cursor_execute cur BEGIN_IMMEDIATE ;;
  cursor_execute cur CREATE_TABLE ;;
  ret cur.

(** [main(target_migration)] on an open connection, with [listing] the
    contents of the migrations folder. *)
Definition main_on (listing : list (DirEntry DB)) : M (Conn DB) unit :=
  cur <- prologue ;;
  match load_migrations listing no_migrations with
  | (Raise e, _) => raise e
  | (Ok _, l) =>
      migrations_order <- order_migrations l ;;
      _execute_migrations (migrations l) migrations_order ;;
      cursor_execute cur CHECKPOINT ;;
      cursor_execute cur DELETE_MODE
  end.

(** [sqlite3.connect(...)] to the database [d]. *)
Definition connect (d : DB) : Conn DB := MkConn d 0 [].

Definition main (target_migration : string) (listing : list (DirEntry DB))
    (d : DB) : result unit * Conn DB :=
  main_on listing (connect d).

End Main.

(** * Notions the properties are stated with *)

Module Graph.
Import Order.

Section Defs.
Variable aj : gmap string (list string).

(** [edge n m]: [m] is listed under [n], that is, [m] depends on [n]. *)
Definition edge (n m : string) : Prop := m ∈ aj_get aj n.

(** No name reaches itself along one or more edges. *)
Definition acyclic : Prop := ∀ n, ¬ tc edge n n.

(** Every name listed after [x] under which [x] has an edge: all the
    dependents of a name stand strictly after it. *)
Fixpoint topo (l : list string) : Prop :=
  match l with
  | [] => True
  | x :: l' => (∀ y, edge x y → y ∈ l') ∧ topo l'
  end.

(** [before x y l]: [x] stands at an earlier position of [l] than [y]. *)
Definition before (x y : string) (l : list string) : Prop :=
  ∃ l1 l2 l3, l = l1 ++ x :: l2 ++ y :: l3.

Record inv (st : visit_state) : Prop := MkInv {
  inv_nodup : NoDup (node_ordering st);
  inv_seen : ∀ x, x ∈ node_ordering st ↔ x ∈ nodes_seen st;
  inv_topo : topo (node_ordering st);
  inv_disj : nodes_seen st ## cycle_check_set st
}.

(** What a run of [_visit] over the names [ns] from [st] guarantees. *)
Definition visit_post (ns : list string) (st : visit_state)
    (r : result visit_state) : Prop :=
  match r with
  | Ok st' =>
      cycle_check_set st' = cycle_check_set st ∧
      (∀ n, n ∈ ns → n ∈ nodes_seen st') ∧
      (inv st → inv st') ∧
      ∃ pre, node_ordering st' = pre ++ node_ordering st ∧
             nodes_seen st' = list_to_set pre ∪ nodes_seen st ∧
             ∀ x, x ∈ pre → ∃ n, n ∈ ns ∧ rtc edge n x
  | Raise e =>
      e = DependencyCycle ∧
      ((∀ n c, n ∈ ns → c ∈ cycle_check_set st → tc edge c n) →
       ∃ c, tc edge c c)
  end.

End Defs.
End Graph.

(** What holds of the three locals all along the loop. *)
Record load_inv {DB : Type} (l : Loaded DB) : Prop := MkLoadInv {
  keys_nodup : NoDup (dict_keys (migrations l));
  keys_allowed : LM_LATEST_ALIAS ∉ dict_keys (migrations l);
  edges_to_keys : ∀ n m, Graph.edge (aj l) n m → m ∈ dict_keys (migrations l);
  roots_are_keys : ∀ n, n ∈ roots l → n ∈ dict_keys (migrations l)
}.



(** The adjacency dictionary after [name] was appended under each key of
    [deps] in turn. *)
Definition add_edges (aj : gmap string (list string)) (name : string)
    (deps : list string) : gmap string (list string) :=
  foldl (λ aj dm, aj_append aj dm name) aj deps.

Section LoadDefs.
Import Validate.
Context {DB : Type}.

(** The exception that loading a migration file raises, if any: that of
    its import, that of the validation of the module, or [TypeError] for a
    dependency that cannot be a key of [aj]. *)
Definition load_error (e : DirEntry DB) : option exn :=
  match m_import e with
  | Some err => Some err
  | None =>
      match _validate_migration (m_attrs e) with
      | Raises VAssertionError => Some AssertionError
      | Raises VTypeError => Some TypeError
      | Passes =>
          if forallb hashable (declared (m_attrs e)) then None else Some TypeError
      end
  end.

(** The exception a round of the loop over the folder raises, if any. *)
Definition entry_error (e : DirEntry DB) : option exn :=
  if skipped e then None
  else if String.eqb (m_name e) LM_LATEST_ALIAS then Some ForbiddenMigrationName
  else load_error e.

(** The exception the loop over the folder raises, if any: that of the
    first round that raises. *)
Definition loading_error (listing : list (DirEntry DB)) : option exn :=
  head (omap entry_error listing).

End LoadDefs.

Section TraceDefs.
Context {DB : Type} `{!Sqlite DB}.

(** The up-steps [_execute_migrations] is to apply, in the order it is to
    apply them: those of the first name of the order in their listed
    order, then those of the second, and so on. *)
Definition plan (migrations : list (string * Migration DB))
    (migrations_order : list string) : list (Step DB) :=
  migrations_order ≫= λ name, default [] (up <$> dict_get name migrations).

(** What applying a step through cursor [c] asks of the connection. *)
Definition step_event (step : Step DB) (c : nat) : event :=
  match step with
  | SQLStep _sql => Execute c _sql
  | PythonStep f => Invoke (callable_name f) [] {["cur" := PyCursor c]}
  end.

(** The events of applying [steps] one after the other when [k] cursors
    were handed out before: a fresh cursor, the step, a commit. *)
Fixpoint run_events (k : nat) (steps : list (Step DB)) : list event :=
  match steps with
  | [] => []
  | step :: steps' =>
      Cursor k :: step_event step k :: Commit :: run_events (S k) steps'
  end.

(** The applications of steps among the events of a trace. *)
Definition is_application (ev : event) : bool :=
  match ev with
  | Execute _ _ | Invoke _ _ _ => true
  | Cursor _ | Commit => false
  end.

Definition applications (tr : list event) : list event :=
  List.filter is_application tr.

Definition is_commit (ev : event) : bool :=
  match ev with Commit => true | _ => false end.

Definition commits (tr : list event) : nat :=
  length (List.filter is_commit tr).

(** [step_event]s of [steps] with the cursors [k], [k+1], ... *)
Fixpoint step_events (k : nat) (steps : list (Step DB)) : list event :=
  match steps with
  | [] => []
  | step :: steps' => step_event step k :: step_events (S k) steps'
  end.

Definition prologue_events : list event :=
  [Cursor 0; Execute 0 WAL_MODE; Execute 0 NO_AUTOCHECKPOINT;
   Execute 0 BEGIN_IMMEDIATE; Execute 0 CREATE_TABLE].

(** The six statements [main] itself executes. *)
Definition coordinator_statements : list string :=
  [WAL_MODE; NO_AUTOCHECKPOINT; BEGIN_IMMEDIATE; CREATE_TABLE;
   CHECKPOINT; DELETE_MODE].

(** Whether the text of a statement names the bookkeeping table. *)
Definition names_table (sql : string) : bool :=
  match String.index 0 LM_MIGRATIONS_TABLE sql with
  | Some _ => true
  | None => false
  end.

(** What a run of a loop over [steps] added to the trace: all the events
    of the steps when it returned, a beginning of them when it raised. *)
Definition ran (k : nat) (steps : list (Step DB)) (r : result unit)
    (tr : list event) : Prop :=
  match r with
  | Ok _ => tr = run_events k steps
  | Raise _ => tr `prefix_of` run_events k steps
  end.

(** What a step called with the cursor [k] does to the database: its
    statement is run, or its callable is called with [cur] the cursor. *)
Definition step_effect (step : Step DB) (k : nat) : DB → DB * option exn :=
  match step with
  | SQLStep _sql => sql_execute _sql
  | PythonStep f => callable_run f [] {["cur" := PyCursor k]}
  end.

(** A commit after every step, written out on the database: each of
    [steps] in turn is applied through a fresh cursor and, when it did
    not raise, committed before the next; the first step or commit that
    raises ends the run with its exception.  The value is the outcome,
    the database, the number of cursors handed out and the events. *)
Fixpoint commit_per_step (k : nat) (steps : list (Step DB)) (d : DB)
  : result unit * DB * nat * list event :=
  match steps with
  | [] => (Ok (), d, k, [])
  | step :: steps' =>
      match step_effect step k d with
      | (d1, Some e) => (Raise e, d1, S k, [Cursor k; step_event step k])
      | (d1, None) =>
          match sql_commit d1 with
          | (d2, Some e) =>
              (Raise e, d2, S k, [Cursor k; step_event step k; Commit])
          | (d2, None) =>
              let '(r, d3, k', tr) := commit_per_step (S k) steps' d2 in
              (r, d3, k', Cursor k :: step_event step k :: Commit :: tr)
          end
      end
  end.

(** A run of [main] that fails before its last two statements: while
    setting up, while loading (a file named [latest], or one that does
    not import or validate), while ordering ([DependencyCycle]) or while
    applying a step. *)
Inductive fails_before_checkpoint (listing : list (DirEntry DB)) (d : DB)
    : exn → Prop :=
  | fails_in_setup e c1 :
      prologue (connect d) = (Raise e, c1) →
      fails_before_checkpoint listing d e
  | fails_in_load cur c1 e l :
      prologue (connect d) = (Ok cur, c1) →
      load_migrations listing no_migrations = (Raise e, l) →
      fails_before_checkpoint listing d e
  | fails_in_order cur c1 l e c2 :
      prologue (connect d) = (Ok cur, c1) →
      load_migrations listing no_migrations = (Ok (), l) →
      order_migrations l c1 = (Raise e, c2) →
      fails_before_checkpoint listing d e
  | fails_in_step cur c1 l migrations_order c2 e c3 :
      prologue (connect d) = (Ok cur, c1) →
      load_migrations listing no_migrations = (Ok (), l) →
      order_migrations l c1 = (Ok migrations_order, c2) →
      _execute_migrations (migrations l) migrations_order c2 = (Raise e, c3) →
      fails_before_checkpoint listing d e.

(** The stages a run of [main] goes through, and where it can stop. *)
Inductive main_stages (listing : list (DirEntry DB)) (d : DB)
    : result unit → Conn DB → Prop :=
  | stop_in_setup e c1 :
      prologue (connect d) = (Raise e, c1) →
      main_stages listing d (Raise e) c1
  | stop_in_load cur c1 e l :
      prologue (connect d) = (Ok cur, c1) →
      load_migrations listing no_migrations = (Raise e, l) →
      main_stages listing d (Raise e) c1
  | stop_in_order cur c1 l e :
      prologue (connect d) = (Ok cur, c1) →
      load_migrations listing no_migrations = (Ok (), l) →
      order_migrations l c1 = (Raise e, c1) →
      main_stages listing d (Raise e) c1
  | stop_in_step cur c1 l order e c3 :
      prologue (connect d) = (Ok cur, c1) →
      load_migrations listing no_migrations = (Ok (), l) →
      order_migrations l c1 = (Ok order, c1) →
      _execute_migrations (migrations l) order c1 = (Raise e, c3) →
      main_stages listing d (Raise e) c3
  | reach_end cur c1 l order c3 r c4 :
      prologue (connect d) = (Ok cur, c1) →
      load_migrations listing no_migrations = (Ok (), l) →
      order_migrations l c1 = (Ok order, c1) →
      _execute_migrations (migrations l) order c1 = (Ok (), c3) →
      bind (cursor_execute cur CHECKPOINT) (λ _, cursor_execute cur DELETE_MODE) c3 = (r, c4) →
      main_stages listing d r c4.

End TraceDefs.

(** The names a listing contributes as migrations. *)
Definition discovered {DB : Type} (listing : list (DirEntry DB)) : list string :=
  m_name <$> List.filter (λ e, negb (skipped e)) listing.

(** * A driver to run the model on

    A database that only records: the statements run since the last commit
    and, in [committed], those a commit has made permanent.  A statement
    that starts with [FAIL] raises. *)

Module Journal.

Record journal : Type := MkJournal {
  committed : list string;
  pending : list string
}.

Definition execute (sql : string) (j : journal) : journal * option exn :=
  if String.prefix "FAIL" sql then (j, Some (DatabaseError sql))
  else (MkJournal (committed j) (pending j ++ [sql]), None).

Definition commit (j : journal) : journal * option exn :=
  (MkJournal (committed j ++ pending j) [], None).

#[export] Instance journal_sqlite : Sqlite journal :=
  {| sql_execute := execute; sql_commit := commit |}.

Definition empty : journal := MkJournal [] [].

Definition migration (up : list (Step journal)) (depends_on : list string)
  : Migration journal :=
  MkMigration up [] depends_on.

(** The file of a module that imports without raising and defines [m]. *)
Definition file (name : string) (m : Migration journal) : DirEntry journal :=
  MkDirEntry name ".py" None (Validate.of_migration m).

End Journal.

(** Folders and graphs the properties are tried on. *)
Module Scenario.
Import Journal.

Definition CREATE_T : string := "CREATE TABLE t (x INTEGER)".
Definition CREATE_U : string := "CREATE TABLE u (y INTEGER)".

(** One migration of two steps. *)
Definition initial : Migration journal := migration [SQLStep CREATE_T; SQLStep CREATE_U] [].
Definition single : list (DirEntry journal) := [file "initial" initial].

(** One migration whose second step raises. *)
Definition broken : list (DirEntry journal) :=
  [file "initial" (migration [SQLStep CREATE_T; SQLStep "FAIL"] [])].

(** [child] depends on [root]; the folder lists [child] first. *)
Definition chain : list (DirEntry journal) :=
  [file "child" (migration [SQLStep CREATE_U] ["root"]);
   file "root" (migration [SQLStep CREATE_T] [])].

(** [a] and [b] depend on each other. *)
Definition cyclic : list (DirEntry journal) :=
  [file "a" (migration [SQLStep CREATE_T] ["b"]);
   file "b" (migration [SQLStep CREATE_U] ["a"])].

(** [orphan] depends on [ghost], which no file defines. *)
Definition orphaned : list (DirEntry journal) :=
  [file "orphan" (migration [SQLStep CREATE_T] ["ghost"])].

(** A file named [latest] after a file [a] that depends on [b]. *)
Definition with_latest : list (DirEntry journal) :=
  [file "a" (migration [SQLStep CREATE_T] ["b"]);
   file "latest" (migration [SQLStep CREATE_U] [])].

(** A file that defines neither [up] nor [down], then a file named
    [latest]. *)
Definition bad_then_latest : list (DirEntry journal) :=
  [MkDirEntry "bad" ".py" None ∅;
   file "latest" (migration [SQLStep CREATE_U] [])].

(** A migration whose second step is a Python function that enters the
    migration in the bookkeeping table itself, on the cursor it is given. *)
Definition RECORD : string :=
  "INSERT INTO _lm_migrations VALUES ('initial', 0)".
Definition record_migration : Callable journal :=
  MkCallable "record_migration" (λ _ _, execute RECORD).
Definition self_recording : list (DirEntry journal) :=
  [file "initial" (migration [SQLStep CREATE_T; PythonStep record_migration] [])].

(** What loading a folder leaves in the locals of [main]. *)
Definition loaded (listing : list (DirEntry journal)) : Loaded journal :=
  (load_migrations listing no_migrations).2.

End Scenario.

(** * Notions for the further properties *)

Section MoreDefs.
Context {DB : Type} `{!Sqlite DB}.

(** Two modules that differ at most in their [down] steps. *)
Definition same_up (m m' : Migration DB) : Prop :=
  up m = up m' ∧ depends_on m = depends_on m'.

(** Two folder entries that differ at most in the [down] attribute of
    their modules, and whose [down] attributes fare alike in the
    validation: both are missing, or both are there and the loop over
    them comes to the same verdict. *)
Definition same_file (e e' : DirEntry DB) : Prop :=
  m_name e = m_name e' ∧ m_ext e = m_ext e' ∧ m_import e = m_import e' ∧
  m_attrs e !! "up" = m_attrs e' !! "up" ∧
  m_attrs e !! "depends_on" = m_attrs e' !! "depends_on" ∧
  Validate.assert_steps <$> (m_attrs e !! "down")
  = Validate.assert_steps <$> (m_attrs e' !! "down").

(** Two states of the locals of [main] that differ at most in the [down]
    steps of the modules. *)
Definition same_loaded (l l' : Loaded DB) : Prop :=
  dict_keys (migrations l) = dict_keys (migrations l') ∧
  (∀ name, match dict_get name (migrations l), dict_get name (migrations l') with
           | Some m, Some m' => same_up m m'
           | None, None => True
           | _, _ => False
           end) ∧
  aj l = aj l' ∧ roots l = roots l'.

(** The driver raises only exceptions of the kind [P]. *)
Definition driver_raises (P : exn → Prop) : Prop :=
  (∀ sql d e, (sql_execute sql d).2 = Some e → P e) ∧
  (∀ d e, (sql_commit d).2 = Some e → P e).

(** The callables of the up-steps of a folder raise only exceptions of the
    kind [P]. *)
Definition callables_raise (P : exn → Prop) (listing : list (DirEntry DB)) : Prop :=
  ∀ e f args kwargs d err,
    e ∈ listing → PythonStep f ∈ up (m_mod e) →
    (callable_run f args kwargs d).2 = Some err → P err.

End MoreDefs.

(** Further folders and modules the properties are tried on. *)
Module Scenario2.
Import Journal Scenario Validate.

(** [chain] with [down] steps. *)
Definition chain_with_down : list (DirEntry journal) :=
  [file "child" (MkMigration [SQLStep CREATE_U] [SQLStep "DROP TABLE u"] ["root"]);
   file "root" (MkMigration [SQLStep CREATE_T] [SQLStep "DROP TABLE t"] [])].

(** A folder with a file that is no migration. *)
Definition with_readme : list (DirEntry journal) :=
  [MkDirEntry "README" ".md" None ∅;
   file "root" (migration [SQLStep CREATE_T] [])].

(** The exceptions the recording driver raises. *)
Definition is_database_error (e : exn) : Prop := ∃ msg, e = DatabaseError msg.

(** A module whose [up] is a number, and one whose dependencies are two
    numbers. *)
Definition up_is_number : gmap string (pyobj journal) :=
  <["up" := OInt 3]> (<["down" := OList []]> ∅).

Definition numbered_dependencies : pyobj journal := OTuple [OInt 1; OInt 2].

(** The state a visit of [root] in [chain] ends in. *)
Definition after_root : Order.visit_state :=
  match Order._visit 2 (aj (loaded chain)) "root" Order.initial_state with
  | Some (Ok st) => st
  | _ => Order.initial_state
  end.

End Scenario2.

(** * Properties of the ordering *)

Module OrderFacts.
Import Order Graph.

Section Graph.
Variable aj : gmap string (list string).
Local Abbreviation edge := (edge aj).
Local Abbreviation topo := (topo aj).

Local Abbreviation inv := (inv aj).
Local Abbreviation visit_post := (visit_post aj).
Local Abbreviation acyclic := (acyclic aj).

Lemma for_each_post depth ns :
  (∀ n st r, _visit depth aj n st = Some r → visit_post [n] st r) →
  ∀ st r, for_each (_visit depth aj) ns st = Some r → visit_post ns st r.
Proof.
  intros Hbody. induction ns as [|n ns IH]; intros st r Hrun; simpl in Hrun.
  - injection Hrun as <-. simpl. split; [done|]. split; [set_solver|].
    split; [done|]. exists []. set_solver.
  - destruct (_visit depth aj n st) as [[s'|e]|] eqn:Hn; [|simplify_eq|done].
    + apply Hbody in Hn. destruct Hn as (Hc1 & Hs1 & Hi1 & pre1 & Ho1 & Hn1 & Hr1).
      apply IH in Hrun. destruct r as [st'|e]; simpl in *.
      * destruct Hrun as (Hc2 & Hs2 & Hi2 & pre2 & Ho2 & Hn2 & Hr2).
        split; [congruence|]. split.
        { intros m [->|Hm]%elem_of_cons; [|by apply Hs2].
          rewrite Hn2. apply elem_of_union_r, Hs1. set_solver. }
        split; [tauto|]. exists (pre2 ++ pre1).
        rewrite Ho2, Ho1, Hn2, Hn1, list_to_set_app_L, <-(assoc_L (++)).
        split; [done|]. split; [set_solver|].
        intros x [Hx|Hx]%elem_of_app.
        -- destruct (Hr2 x Hx) as (m & ? & ?). exists m. set_solver.
        -- destruct (Hr1 x Hx) as (m & Hm%list_elem_of_singleton & ?). subst m.
           exists n. set_solver.
      * destruct Hrun as [-> Hcyc]. split; [done|]. intros Hpath.
        apply Hcyc. intros m c Hm Hc. apply Hpath; [set_solver|congruence].
    + apply Hbody in Hn. destruct Hn as [-> Hcyc]. split; [done|].
      intros Hpath. apply Hcyc. intros m c ->%list_elem_of_singleton Hc.
      apply Hpath; [set_solver|done].
Qed.

Lemma visit_spec depth n st r :
  _visit depth aj n st = Some r → visit_post [n] st r.
Proof.
  revert n st r. induction depth as [|depth IH]; intros n st r; [done|].
  simpl. destruct (decide (n ∈ nodes_seen st)) as [Hseen|Hseen].
  { intros [= <-]. simpl. split; [done|]. split; [set_solver|].
    split; [done|]. exists []. set_solver. }
  destruct (decide (n ∈ cycle_check_set st)) as [Hcc|Hcc].
  { intros [= <-]. split; [done|]. intros Hpath. exists n.
    apply Hpath; [set_solver|done]. }
  set (st1 := {| nodes_seen := nodes_seen st;
                 cycle_check_set := {[n]} ∪ cycle_check_set st;
                 node_ordering := node_ordering st |}).
  destruct (for_each (_visit depth aj) (aj_get aj n) st1) as [[st2|e]|] eqn:Hloop;
    [| |done].
  - apply (for_each_post _ _ IH) in Hloop.
    destruct Hloop as (Hc & Hs & Hi & pre & Ho & Hn & Hr). simpl in Hc.
    destruct (decide (n ∈ cycle_check_set st2)) as [_|Hout]; [|set_solver].
    intros [= <-]. simpl. split; [set_solver|]. split; [set_solver|]. split.
    + intros Hinv.
      assert (inv st2) as [Hnd2 Hs2 Ht2 Hd2].
      { apply Hi. destruct Hinv. split; simpl; set_solver. }
      assert (n ∉ nodes_seen st2) by set_solver.
      split; simpl.
      * apply NoDup_cons. split; [by rewrite Hs2|done].
      * intros x. rewrite elem_of_cons, Hs2. set_solver.
      * split; [|done]. intros y Hy. apply Hs2, Hs, Hy.
      * set_solver.
    + exists (n :: pre). rewrite Ho, Hn. simpl. split; [done|].
      split; [set_solver|]. intros x [->|Hx]%elem_of_cons.
      * exists n. split; [set_solver|done].
      * destruct (Hr x Hx) as (m & Hm & Hmx). exists n.
        split; [set_solver|]. by eapply rtc_l.
  - apply (for_each_post _ _ IH) in Hloop. destruct Hloop as [-> Hcyc].
    intros [= <-]. split; [done|]. intros Hpath. apply Hcyc.
    intros m c Hm. simpl. intros [->%elem_of_singleton|Hc]%elem_of_union.
    + by apply tc_once.
    + eapply tc_r; [|exact Hm]. apply Hpath; [set_solver|done].
Qed.

Lemma visit_all_spec depth ns st r :
  for_each (_visit depth aj) ns st = Some r → visit_post ns st r.
Proof. apply for_each_post. intros. by eapply visit_spec. Qed.

(** *** The nesting bound is never reached *)

Section Budget.
Variable U : gset string.
Hypothesis U_closed : ∀ n m, edge n m → m ∈ U.

Lemma for_each_total depth ns :
  (∀ n st, n ∈ U → cycle_check_set st ⊆ U →
           size (U ∖ cycle_check_set st) < depth →
           is_Some (_visit depth aj n st)) →
  ∀ st, (∀ n, n ∈ ns → n ∈ U) → cycle_check_set st ⊆ U →
        size (U ∖ cycle_check_set st) < depth →
        is_Some (for_each (_visit depth aj) ns st).
Proof.
  intros Hbody. induction ns as [|n ns IH]; intros st Hns Hsub Hsz; simpl.
  - by eexists.
  - destruct (Hbody n st) as [[s'|e] Hn]; [set_solver|done|done| |];
      rewrite Hn; [|by eexists].
    apply visit_spec in Hn. destruct Hn as (Hc & _).
    apply IH; [set_solver|by rewrite Hc|by rewrite Hc].
Qed.

Lemma visit_total depth n st :
  n ∈ U → cycle_check_set st ⊆ U →
  size (U ∖ cycle_check_set st) < depth →
  is_Some (_visit depth aj n st).
Proof.
  revert n st. induction depth as [|depth IH]; intros n st Hn Hsub Hsz; [lia|].
  simpl. destruct (decide (n ∈ nodes_seen st)); [by eexists|].
  destruct (decide (n ∈ cycle_check_set st)) as [|Hcc]; [by eexists|].
  set (st1 := {| nodes_seen := nodes_seen st;
                 cycle_check_set := {[n]} ∪ cycle_check_set st;
                 node_ordering := node_ordering st |}).
  destruct (for_each_total depth (aj_get aj n) IH st1) as [[st2|e] Hloop].
  - intros m Hm. by eapply U_closed.
  - simpl. set_solver.
  - simpl.
    assert (U ∖ cycle_check_set st
            = {[n]} ∪ U ∖ ({[n]} ∪ cycle_check_set st)) as Hsplit.
    { apply set_eq. intros x. rewrite elem_of_union, !elem_of_difference,
        elem_of_union, elem_of_singleton.
      destruct (decide (x = n)); set_solver. }
    rewrite Hsplit, size_union, size_singleton in Hsz by set_solver. lia.
  - rewrite Hloop. destruct (decide _); by eexists.
  - rewrite Hloop. by eexists.
Qed.
End Budget.

(** *** Lists in topological order *)

Lemma topo_app l1 l2 : topo (l1 ++ l2) → topo l2.
Proof. induction l1 as [|x l1 IH]; simpl; [done|]. intros [_ ?]. auto. Qed.

Lemma topo_after l1 x l2 y :
  topo (l1 ++ x :: l2) → tc edge x y → y ∈ l2.
Proof.
  intros Ht Hxy. revert l1 l2 Ht.
  induction Hxy as [x y Hxy|x y z Hxy _ IH]; intros l1 l2 Ht.
  - apply topo_app in Ht. destruct Ht as [Hx _]. by apply Hx.
  - pose proof (topo_app _ _ Ht) as [Hx _].
    destruct (list_elem_of_split l2 y (Hx y Hxy)) as (l3 & l4 & ->).
    specialize (IH (l1 ++ x :: l3) l4).
    rewrite <-(assoc_L (++)) in IH. simpl in IH. specialize (IH Ht).
    set_solver.
Qed.

Lemma topo_before l x y :
  topo l → x ∈ l → tc edge x y → before x y l.
Proof.
  intros Ht (l1 & l2 & ->)%list_elem_of_split Hxy.
  destruct (list_elem_of_split l2 y (topo_after _ _ _ _ Ht Hxy)) as (l3 & l4 & ->).
  by exists l1, l3, l4.
Qed.

Lemma topo_no_cycle l c : NoDup l → topo l → c ∈ l → ¬ tc edge c c.
Proof.
  intros Hnd Ht (l1 & l2 & ->)%list_elem_of_split Hcc.
  apply NoDup_app in Hnd as (_ & _ & [Hc _]%NoDup_cons).
  apply Hc. by apply (topo_after l1 c l2 c).
Qed.

Lemma tc_target x y : tc edge x y → ∃ z, edge z y.
Proof. induction 1; eauto. Qed.

Lemma rtc_closed (K : string → Prop) x y :
  (∀ n m, edge n m → K m) → K x → rtc edge x y → K y.
Proof.
  intros HK Hx Hxy. apply rtc_tc in Hxy as [<-|Htc]; [done|].
  destruct (tc_target _ _ Htc) as [z Hz]. by eapply HK.
Qed.

(** *** The whole function *)

Lemma graph_nodes_closed keys n m : edge n m → m ∈ graph_nodes keys aj.
Proof.
  unfold edge, aj_get, graph_nodes. intros Hm.
  destruct (aj !! n) as [l|] eqn:Hl; simpl in Hm; [|set_solver].
  apply elem_of_union_r, elem_of_union_list. exists (list_to_set l).
  split; [|set_solver].
  apply list_elem_of_fmap. exists l. split; [done|].
  apply list_elem_of_fmap. exists (n, l). split; [done|].
  by apply elem_of_map_to_list.
Qed.

Lemma inv_initial : inv initial_state.
Proof. split; simpl; [constructor|set_solver|done|set_solver]. Qed.

Lemma check_total keys : is_Some (_check_for_cycles_and_order keys aj).
Proof.
  unfold _check_for_cycles_and_order, _check_for_cycles_and_order_at.
  destruct (for_each_total (graph_nodes keys aj) (graph_nodes_closed keys)
              (S (size (graph_nodes keys aj))) (reverse keys)
              (visit_total _ (graph_nodes_closed keys) _) initial_state)
    as [[st|e] ->]; simpl; try by eexists.
  - intros n Hn. rewrite elem_of_reverse in Hn. unfold graph_nodes. set_solver.
  - set_solver.
  - rewrite difference_empty_L. lia.
Qed.

Lemma check_ok keys order :
  _check_for_cycles_and_order keys aj = Some (Ok order) →
  NoDup order ∧ topo order ∧ (∀ k, k ∈ keys → k ∈ order) ∧
  (∀ x, x ∈ order → ∃ k, k ∈ keys ∧ rtc edge k x).
Proof.
  unfold _check_for_cycles_and_order, _check_for_cycles_and_order_at.
  destruct (for_each _ _ _) as [[st|e]|] eqn:Hrun; [|done..]. intros [= <-].
  apply visit_all_spec in Hrun.
  destruct Hrun as (_ & Hs & Hi & pre & Ho & _ & Hr).
  destruct (Hi inv_initial) as [Hnd Hseen Ht _]. simpl in Ho.
  rewrite app_nil_r in Ho. subst pre.
  split; [done|]. split; [done|]. split.
  - intros k Hk. apply Hseen, Hs. by apply elem_of_reverse.
  - intros x Hx. destruct (Hr x Hx) as (k & Hk & ?).
    rewrite elem_of_reverse in Hk. eauto.
Qed.

Lemma check_raise keys e :
  _check_for_cycles_and_order keys aj = Some (Raise e) →
  e = DependencyCycle ∧ ∃ c, tc edge c c.
Proof.
  unfold _check_for_cycles_and_order, _check_for_cycles_and_order_at.
  destruct (for_each _ _ _) as [[st|e']|] eqn:Hrun; [done| |done]. intros [= <-].
  apply visit_all_spec in Hrun. destruct Hrun as [-> Hcyc].
  split; [done|]. apply Hcyc. simpl. set_solver.
Qed.

Lemma check_acyclic keys :
  acyclic → ∃ order, _check_for_cycles_and_order keys aj = Some (Ok order).
Proof.
  intros Hac. destruct (check_total keys) as [[order|e] Hrun]; [eauto|].
  destruct (check_raise _ _ Hrun) as (_ & c & Hc). by destruct (Hac c).
Qed.

(** A cycle among names that the adjacency lists confine to the keys is
    always found. *)
Lemma check_cycle keys c :
  (∀ n m, edge n m → m ∈ keys) → tc edge c c →
  _check_for_cycles_and_order keys aj = Some (Raise DependencyCycle).
Proof.
  intros Hkeys Hc. destruct (check_total keys) as [[order|e] Hrun].
  - destruct (check_ok _ _ Hrun) as (Hnd & Ht & Hall & _).
    destruct (tc_target _ _ Hc) as [z Hz].
    destruct (topo_no_cycle order c Hnd Ht); [|done]. eauto.
  - by destruct (check_raise _ _ Hrun) as [-> _].
Qed.

Lemma check_permutation keys order :
  NoDup keys → (∀ n m, edge n m → m ∈ keys) →
  _check_for_cycles_and_order keys aj = Some (Ok order) → order ≡ₚ keys.
Proof.
  intros Hnd Hkeys (Hnd' & _ & Hall & Hreach)%check_ok.
  apply NoDup_Permutation; [done..|]. intros x. split; [|by apply Hall].
  intros (k & Hk & Hkx)%Hreach. by apply (rtc_closed (λ y, y ∈ keys) k).
Qed.

End Graph.
End OrderFacts.

(** * Properties of dictionaries and of loading *)

Section DictFacts.
Context {V : Type}.
Implicit Types (d : list (string * V)) (k : string) (v : V).

Lemma dict_keys_set d k v x :
  x ∈ dict_keys (dict_set k v d) ↔ x = k ∨ x ∈ dict_keys d.
Proof.
  unfold dict_keys. induction d as [|[k' v'] d IH]; simpl.
  - set_solver.
  - destruct (decide (k = k')) as [->|Hne]; simpl; [set_solver|].
    rewrite !elem_of_cons, IH. tauto.
Qed.

Lemma dict_keys_set_NoDup d k v :
  NoDup (dict_keys d) → NoDup (dict_keys (dict_set k v d)).
Proof.
  unfold dict_keys. induction d as [|[k' v'] d IH]; simpl.
  - intros _. apply NoDup_singleton.
  - intros [Hk' Hd]%NoDup_cons.
    destruct (decide (k = k')) as [->|Hne]; simpl.
    + by apply NoDup_cons.
    + apply NoDup_cons. split; [|auto].
      intros [?|?]%dict_keys_set; [congruence|done].
Qed.

Lemma dict_get_set d k v : dict_get k (dict_set k v d) = Some v.
Proof.
  induction d as [|[k' v'] d IH]; simpl.
  - by rewrite decide_True.
  - destruct (decide (k = k')) as [->|Hne]; simpl.
    + by rewrite decide_True.
    + by rewrite decide_False.
Qed.

Lemma dict_get_is_Some d k : is_Some (dict_get k d) ↔ k ∈ dict_keys d.
Proof.
  unfold dict_keys. induction d as [|[k' v'] d IH]; simpl.
  - split; [by intros [? ?]|by intros ?%elem_of_nil].
  - destruct (decide (k = k')) as [->|Hne].
    + split; [set_solver|by eexists].
    + rewrite IH. set_solver.
Qed.
Lemma dict_set_fresh d k v : k ∉ dict_keys d → dict_set k v d = d ++ [(k, v)].
Proof.
  unfold dict_keys. induction d as [|[k' v'] d IH]; simpl; [done|].
  intros Hk. rewrite decide_False by set_solver. rewrite IH; [done|set_solver].
Qed.

Lemma dict_get_set_ne d k k' v : k ≠ k' → dict_get k (dict_set k' v d) = dict_get k d.
Proof.
  intros Hne. induction d as [|[k'' v''] d IH]; simpl.
  - by rewrite decide_False.
  - destruct (decide (k' = k'')) as [->|Hne']; simpl.
    + by rewrite !decide_False.
    + destruct (decide (k = k'')); [done|apply IH].
Qed.
End DictFacts.

Section MforFacts.
Context {S A : Type}.

(** A property of the state that every round of a loop keeps is kept by
    the loop, however it ends. *)
Lemma mfor_invariant (P : S → Prop) (body : A → M S unit) xs s r s' :
  (∀ x s r s', x ∈ xs → body x s = (r, s') → P s → P s') →
  mfor body xs s = (r, s') → P s → P s'.
Proof.
  revert s. induction xs as [|x xs IH]; intros s Hbody; simpl.
  - by intros [= <- <-].
  - unfold bind. destruct (body x s) as [[[]|e] s1] eqn:Hx.
    + intros Hrun Hs. apply (IH s1); [|done|].
      * intros ?????. apply Hbody. set_solver.
      * eapply Hbody; [|done..]. set_solver.
    + intros [= <- <-] Hs. eapply Hbody; [|done..]. set_solver.
Qed.
(** A loop over two lists in a row is the loop over the first and then,
    unless that raised, the loop over the second. *)
Lemma mfor_app (body : A → M S unit) xs ys s :
  mfor body (xs ++ ys) s
  = match mfor body xs s with
    | (Ok _, s1) => mfor body ys s1
    | (Raise e, s1) => (Raise e, s1)
    end.
Proof.
  revert s. induction xs as [|x xs IH]; intros s; simpl; [done|].
  unfold bind. destruct (body x s) as [[[]|e] s1]; [apply IH|done].
Qed.
End MforFacts.

Module LoadFacts.
Import Graph.

Section Load.
Context {DB : Type}.
Implicit Types (e : DirEntry DB) (l : Loaded DB) (listing : list (DirEntry DB)).

Lemma edge_aj_append aj dm name n m :
  edge (aj_append aj dm name) n m ↔ edge aj n m ∨ (n = dm ∧ m = name).
Proof.
  unfold edge, aj_append, aj_get at 1. destruct (decide (n = dm)) as [->|Hne].
  - rewrite lookup_insert_eq. simpl. rewrite elem_of_app. set_solver.
  - rewrite lookup_insert_ne by done. fold (aj_get aj n). naive_solver.
Qed.

Lemma edge_add_edges aj name deps n m :
  edge (add_edges aj name deps) n m ↔ edge aj n m ∨ (n ∈ deps ∧ m = name).
Proof.
  unfold add_edges. revert aj. induction deps as [|dm deps IH]; intros aj; simpl.
  - set_solver.
  - rewrite IH, edge_aj_append. set_solver.
Qed.

Lemma edge_empty n m : ¬ edge ∅ n m.
Proof. unfold edge, aj_get. rewrite lookup_empty. set_solver. Qed.

Lemma add_edges_snoc aj name deps dm :
  add_edges aj name (deps ++ [dm]) = aj_append (add_edges aj name deps) dm name.
Proof. unfold add_edges. by rewrite foldl_app. Qed.

(** The loop over the dependencies of a module: it files the name under
    each of them, up to the first that cannot be a key. *)
Lemma add_edge_loop name (deps : list (Validate.pyobj DB)) l :
  if forallb hashable deps
  then mfor (add_edge name) deps l
       = (Ok (), MkLoaded (migrations l)
                   (add_edges (aj l) name (dep_key <$> deps)) (roots l))
  else ∃ deps', mfor (add_edge name) deps l
                = (Raise TypeError,
                   MkLoaded (migrations l) (add_edges (aj l) name deps') (roots l)).
Proof.
  revert l. induction deps as [|dm deps IH]; intros l; simpl.
  - by destruct l.
  - unfold bind, add_edge at 1 3. destruct (hashable dm); simpl.
    + specialize (IH (MkLoaded (migrations l) (aj_append (aj l) (dep_key dm) name)
                        (roots l))).
      destruct (forallb hashable deps); simpl in *; [done|].
      destruct IH as [deps' ->]. by exists (dep_key dm :: deps').
    + exists []. by destruct l.
Qed.

Lemma depends_on_m_mod e : depends_on (m_mod e) = dep_key <$> declared (m_attrs e).
Proof. done. Qed.

(** The four ways a round of the loop over the folder can go. *)
Lemma load_entry_cases e l :
  (skipped e = true ∧ load_entry e l = (Ok (), l)) ∨
  (skipped e = false ∧ m_name e = LM_LATEST_ALIAS ∧
   load_entry e l = (Raise ForbiddenMigrationName, l)) ∨
  (skipped e = false ∧ m_name e ≠ LM_LATEST_ALIAS ∧
   load_entry e l =
     (Ok (), MkLoaded (dict_set (m_name e) (m_mod e) (migrations l))
                      (add_edges (aj l) (m_name e) (depends_on (m_mod e)))
                      (match depends_on (m_mod e) with
                       | [] => roots l ++ [m_name e]
                       | _ => roots l
                       end))) ∨
  (skipped e = false ∧ m_name e ≠ LM_LATEST_ALIAS ∧
   ∃ err deps' roots',
     load_entry e l =
       (Raise err, MkLoaded (dict_set (m_name e) (m_mod e) (migrations l))
                            (add_edges (aj l) (m_name e) deps') roots') ∧
     (roots' = roots l ∨ roots' = roots l ++ [m_name e])).
Proof.
  unfold load_entry. destruct (skipped e); [by left|right].
  destruct (String.eqb_spec (m_name e) LM_LATEST_ALIAS) as [Heq|Hne]; [by left|].
  right. unfold bind at 1, _load_migration.
  destruct (m_import e) as [err|].
  { right. split; [done|]. split; [done|]. exists err, [], (roots l). auto. }
  unfold bind at 1, validate.
  destruct (Validate._validate_migration (m_attrs e)) as [|[]]; simpl.
  2,3: right; split; [done|]; split; [done|]; eexists _, [], (roots l); auto.
  unfold bind at 1, add_root.
  set (l1 := MkLoaded _ _ _).
  pose proof (add_edge_loop (m_name e) (declared (m_attrs e)) l1) as Hloop.
  rewrite ?depends_on_m_mod.
  destruct (forallb hashable (declared (m_attrs e))).
  - left. split; [done|]. split; [done|].
    eapply eq_trans; [exact Hloop|]. subst l1. simpl.
    by destruct (declared (m_attrs e)).
  - right. split; [done|]. split; [done|]. destruct Hloop as [deps' Hloop].
    eexists _, deps', _. split; [exact Hloop|]. subst l1. simpl.
    destruct (declared (m_attrs e)); auto.
Qed.

(** What a round raises, and that it returns when it raises nothing. *)
Lemma load_entry_outcome e l :
  (load_entry e l).1
  = match entry_error e with None => Ok () | Some err => Raise err end.
Proof.
  unfold load_entry, entry_error. destruct (skipped e); [done|].
  destruct (String.eqb (m_name e) LM_LATEST_ALIAS); [done|].
  unfold load_error, bind at 1, _load_migration.
  destruct (m_import e) as [err|]; [done|].
  unfold bind at 1, validate.
  destruct (Validate._validate_migration (m_attrs e)) as [|[]]; simpl; [|done..].
  unfold bind at 1, add_root.
  set (l1 := MkLoaded _ _ _).
  pose proof (add_edge_loop (m_name e) (declared (m_attrs e)) l1) as Hloop.
  destruct (forallb hashable (declared (m_attrs e))).
  - by rewrite (f_equal fst Hloop).
  - destruct Hloop as [deps' Hloop]. by rewrite (f_equal fst Hloop).
Qed.

Lemma load_inv_initial : load_inv (@no_migrations DB).
Proof.
  split; simpl; [constructor|set_solver| |set_solver].
  intros n m []%edge_empty.
Qed.

Lemma load_entry_inv e l r l' :
  load_entry e l = (r, l') → load_inv l → load_inv l'.
Proof.
  intros Hrun [Hnd Hlatest Hedges Hroots].
  destruct (load_entry_cases e l)
    as [[_ H]|[(_ & _ & H)|[(_ & Hne & H)|(_ & Hne & err & deps & roots' & H & Hr)]]];
    rewrite H in Hrun; injection Hrun as <- <-; [done..| |].
  - split; simpl.
    + by apply dict_keys_set_NoDup.
    + intros [?|?]%dict_keys_set; [by apply Hne|done].
    + intros n m [?|[_ ->]]%edge_add_edges; apply dict_keys_set; eauto.
    + intros n Hn. apply dict_keys_set. change (depends_on (m_mod e)) with
        (dep_key <$> declared (m_attrs e)) in *.
      destruct (dep_key <$> declared (m_attrs e)); [|by auto].
      apply elem_of_app in Hn as [?|?%list_elem_of_singleton]; auto.
  - split; simpl.
    + by apply dict_keys_set_NoDup.
    + intros [?|?]%dict_keys_set; [by apply Hne|done].
    + intros n m [?|[_ ->]]%edge_add_edges; apply dict_keys_set; eauto.
    + intros n Hn. apply dict_keys_set. destruct Hr as [-> | ->]; [auto|].
      apply elem_of_app in Hn as [?|?%list_elem_of_singleton]; auto.
Qed.

Lemma load_migrations_inv listing r l :
  load_migrations listing no_migrations = (r, l) → load_inv l.
Proof.
  intros Hrun.
  apply (mfor_invariant load_inv _ _ _ _ _ (λ e s r s' _, load_entry_inv e s r s') Hrun).
  apply load_inv_initial.
Qed.

(** What loading raises is what the first round to raise raises. *)
Lemma load_migrations_outcome listing l0 :
  (load_migrations listing l0).1
  = match loading_error listing with None => Ok () | Some err => Raise err end.
Proof.
  unfold load_migrations, loading_error. revert l0.
  induction listing as [|e listing IH]; intros l0; simpl; [done|].
  unfold bind. pose proof (load_entry_outcome e l0) as He.
  destruct (load_entry e l0) as [r l1]. simpl in He. subst r.
  destruct (entry_error e) as [err|]; simpl; [done|]. apply IH.
Qed.

Lemma loading_error_None listing :
  loading_error listing = None ↔ Forall (λ e, entry_error e = None) listing.
Proof.
  unfold loading_error. induction listing as [|e listing IH]; simpl.
  - split; [constructor|done].
  - rewrite Forall_cons. destruct (entry_error e) as [err|]; simpl.
    + split; [done|by intros [? _]].
    + rewrite IH. tauto.
Qed.

Lemma entry_error_latest e :
  skipped e = false → entry_error e = None → m_name e ≠ LM_LATEST_ALIAS.
Proof.
  unfold entry_error. intros ->.
  destruct (String.eqb_spec (m_name e) LM_LATEST_ALIAS); done.
Qed.

Lemma loading_error_app listing1 listing2 :
  loading_error (listing1 ++ listing2)
  = match loading_error listing1 with
    | Some err => Some err
    | None => loading_error listing2
    end.
Proof.
  unfold loading_error. rewrite omap_app.
  by destruct (omap entry_error listing1).
Qed.

(** Loading stops at the first round that raises: the rounds before it
    ran to their end and those after it never begin. *)
Lemma load_migrations_stops (earlier later : list (DirEntry DB)) e err l0 :
  loading_error earlier = None → entry_error e = Some err →
  (load_migrations earlier l0).1 = Ok () ∧
  load_migrations (earlier ++ e :: later) l0
  = (Raise err, (load_entry e (load_migrations earlier l0).2).2).
Proof.
  intros Hearlier He.
  pose proof (load_migrations_outcome earlier l0) as Hout.
  rewrite Hearlier in Hout. split; [done|].
  unfold load_migrations in *. rewrite mfor_app.
  destruct (mfor load_entry earlier l0) as [r l1]. simpl in Hout. subst r.
  simpl. unfold bind. pose proof (load_entry_outcome e l1) as Hr.
  rewrite He in Hr. destruct (load_entry e l1) as [r l2]. simpl in *. by subst r.
Qed.

Lemma load_entry_latest e l :
  skipped e = false → m_name e = LM_LATEST_ALIAS →
  load_entry e l = (Raise ForbiddenMigrationName, l).
Proof.
  intros Hs Hn. unfold load_entry. rewrite Hs, Hn. done.
Qed.

(** The edges loading records are the declared dependencies: [m] is listed
    under [d] exactly when a loaded file named [m] declares [d]. *)
Lemma load_migrations_edges listing l0 l d m :
  load_migrations listing l0 = (Ok (), l) →
  edge (aj l) d m ↔
  edge (aj l0) d m ∨
  ∃ e, e ∈ listing ∧ skipped e = false ∧ m_name e = m ∧ d ∈ depends_on (m_mod e).
Proof.
  unfold load_migrations. revert l0.
  induction listing as [|e listing IH]; intros l0; simpl.
  - intros [= <-]. set_solver.
  - unfold bind.
    destruct (load_entry_cases e l0)
      as [[Hs H]|[(Hs & Hn & H)|[(Hs & Hne & H)|(Hs & Hne & ? & ? & ? & H & _)]]];
      rewrite H; [| done | | done].
    + intros Hrun. rewrite (IH _ Hrun). split; [set_solver|].
      intros [?|(e' & [->|?]%elem_of_cons & ? & ? & ?)]; [auto|congruence|].
      right. exists e'. set_solver.
    + intros Hrun. rewrite (IH _ Hrun). simpl. rewrite edge_add_edges.
      split.
      * intros [[?|[? ?]]|(e' & ? & ? & ? & ?)]; [auto| |].
        -- right. exists e. set_solver.
        -- right. exists e'. set_solver.
      * intros [?|(e' & [->|?]%elem_of_cons & ? & <- & ?)]; [auto..|].
        right. exists e'. set_solver.
Qed.

Lemma load_migrations_keys listing l0 l k :
  load_migrations listing l0 = (Ok (), l) →
  k ∈ dict_keys (migrations l) ↔
  k ∈ dict_keys (migrations l0) ∨ k ∈ discovered listing.
Proof.
  unfold load_migrations, discovered. revert l0.
  induction listing as [|e listing IH]; intros l0; simpl.
  - intros [= <-]. set_solver.
  - unfold bind.
    destruct (load_entry_cases e l0)
      as [[Hs H]|[(Hs & Hn & H)|[(Hs & Hne & H)|(Hs & Hne & ? & ? & ? & H & _)]]];
      rewrite H, Hs; simpl; [| done | | done].
    + apply IH.
    + intros Hrun. rewrite (IH _ Hrun). simpl. rewrite dict_keys_set.
      set_solver.
Qed.

Lemma elem_of_discovered listing name :
  name ∈ discovered listing ↔
  ∃ e, e ∈ listing ∧ skipped e = false ∧ m_name e = name.
Proof.
  unfold discovered. induction listing as [|e listing IH]; simpl.
  - split; [by intros ?%elem_of_nil|by intros (? & ?%elem_of_nil & _)].
  - destruct (skipped e) eqn:Hs; simpl.
    + rewrite IH. split.
      * intros (e' & ? & ? & ?). exists e'. set_solver.
      * intros (e' & [->|?]%elem_of_cons & ? & ?); [congruence|by exists e'].
    + rewrite elem_of_cons, IH. split.
      * intros [->|(e' & ? & ? & ?)]; [exists e|exists e']; set_solver.
      * intros (e' & [->|?]%elem_of_cons & ? & ?); [by left|right; by exists e'].
Qed.

End Load.
End LoadFacts.

(** * Properties of the execution loop and of the coordinator *)

Module EngineFacts.

Section Engine.
Context {DB : Type} `{!Sqlite DB}.
Implicit Types (c : Conn DB) (step : Step DB) (steps : list (Step DB)).

Lemma driver_run op c :
  ∃ r d, driver op c = (r, MkConn d (cursors c) (trace c)).
Proof. unfold driver. destruct (op (db c)) as [d oe]. eauto. Qed.

Lemma cursor_execute_run cur sql c :
  ∃ r d, cursor_execute cur sql c
         = (r, MkConn d (cursors c) (trace c ++ [Execute cur sql])).
Proof.
  unfold cursor_execute, bind, emit.
  destruct (driver_run (sql_execute sql)
              (MkConn (db c) (cursors c) (trace c ++ [Execute cur sql])))
    as (r & d & ->). simpl. destruct r; eauto.
Qed.

Lemma conn_commit_run c :
  ∃ r d, conn_commit c = (r, MkConn d (cursors c) (trace c ++ [Commit])).
Proof.
  unfold conn_commit, bind, emit.
  destruct (driver_run sql_commit
              (MkConn (db c) (cursors c) (trace c ++ [Commit])))
    as (r & d & ->). simpl. destruct r; eauto.
Qed.

(** A step called the way the loop calls it never trips its assertion:
    it runs its statement, or its callable, on the cursor it was given. *)
Lemma step_call_run step k c :
  ∃ r d, step_call step [] {["cur" := PyCursor k]} c
         = (r, MkConn d (cursors c) (trace c ++ [step_event step k])).
Proof.
  destruct step as [sql|f]; simpl.
  - unfold SQLStep_call, kwargs_get. rewrite lookup_singleton_eq. simpl.
    apply cursor_execute_run.
  - unfold PythonStep_call, kwargs_get. rewrite lookup_singleton_eq. simpl.
    unfold bind, emit.
    destruct (driver_run (callable_run f [] {["cur" := PyCursor k]})
                (MkConn (db c) (cursors c)
                   (trace c ++ [Invoke (callable_name f) [] {["cur" := PyCursor k]}])))
      as (r & d & ->). simpl. destruct r; eauto.
Qed.

(** One round of the inner loop: a cursor, the step and, when the step
    did not raise, the commit. *)
Lemma execute_step_run step c r c' :
  execute_step step c = (r, c') →
  cursors c' = S (cursors c) ∧
  ((r = Ok () ∧
    trace c' = trace c ++ [Cursor (cursors c); step_event step (cursors c); Commit]) ∨
   (∃ e, r = Raise e ∧
    (trace c' = trace c ++ [Cursor (cursors c); step_event step (cursors c)] ∨
     trace c' = trace c ++ [Cursor (cursors c); step_event step (cursors c); Commit]))).
Proof.
  unfold execute_step, bind, conn_cursor.
  destruct (step_call_run step (cursors c)
              (MkConn (db c) (S (cursors c)) (trace c ++ [Cursor (cursors c)])))
    as (r1 & d1 & ->). simpl. destruct r1 as [[]|e].
  - destruct (conn_commit_run
                (MkConn d1 (S (cursors c))
                   ((trace c ++ [Cursor (cursors c)]) ++ [step_event step (cursors c)])))
      as (r2 & d2 & ->). simpl. intros [= <- <-]. simpl.
    rewrite <-!(assoc_L (++)). simpl. split; [done|].
    destruct r2 as [[]|e]; [by left|right; eauto].
  - intros [= <- <-]. simpl. rewrite <-!(assoc_L (++)). simpl.
    split; [done|]. right. eauto.
Qed.

Lemma run_events_app k steps1 steps2 :
  run_events k (steps1 ++ steps2)
  = run_events k steps1 ++ run_events (k + length steps1) steps2.
Proof.
  revert k. induction steps1 as [|s steps1 IH]; intros k; simpl.
  - by rewrite Nat.add_0_r.
  - rewrite IH. by replace (S k + length steps1) with (k + S (length steps1)) by lia.
Qed.

Lemma ran_prefix k steps r tr : ran k steps r tr → tr `prefix_of` run_events k steps.
Proof. destruct r; simpl; [by intros ->|done]. Qed.

Lemma mfor_execute_step_run steps c r c' :
  mfor execute_step steps c = (r, c') →
  ∃ tr, trace c' = trace c ++ tr ∧ ran (cursors c) steps r tr ∧
        (r = Ok () → cursors c' = cursors c + length steps).
Proof.
  revert c. induction steps as [|step steps IH]; intros c; simpl.
  - intros [= <- <-]. exists []. rewrite app_nil_r. split; [done|].
    split; [done|]. intros _. lia.
  - unfold bind. destruct (execute_step step c) as [[[]|e] c1] eqn:Hstep;
      apply execute_step_run in Hstep as [Hk Htr].
    + destruct Htr as [[_ Htr]|(e & ? & _)]; [|done]. intros Hrun.
      destruct (IH _ Hrun) as (tr & Htr' & Hran & Hcur).
      exists ([Cursor (cursors c); step_event step (cursors c); Commit] ++ tr).
      rewrite Htr', Htr, <-(assoc_L (++)). split; [done|]. rewrite Hk in *.
      split; [|intros ->; rewrite Hcur by done; lia].
      destruct r; simpl in *; [by rewrite Hran|].
      by apply (prefix_app [_; _; _]).
    + intros [= <- <-]. destruct Htr as [[? _]|(_ & _ & [Htr|Htr])]; [done|..];
        eexists; (split; [exact Htr|]); (split; [|done]); simpl.
      * by exists (Commit :: run_events (S (cursors c)) steps).
      * by exists (run_events (S (cursors c)) steps).
Qed.

Lemma plan_cons (migrations : list (string * Migration DB)) name order :
  plan migrations (name :: order)
  = default [] (up <$> dict_get name migrations) ++ plan migrations order.
Proof. done. Qed.

Lemma execute_migrations_run (migrations : list (string * Migration DB))
    order c r c' :
  _execute_migrations migrations order c = (r, c') →
  ∃ tr, trace c' = trace c ++ tr ∧
        ran (cursors c) (plan migrations order) r tr ∧
        (r = Ok () → cursors c' = cursors c + length (plan migrations order)).
Proof.
  unfold _execute_migrations. revert c.
  induction order as [|name order IH]; intros c.
  - simpl. intros [= <- <-]. exists []. rewrite app_nil_r. split; [done|].
    split; [done|]. intros _. simpl. lia.
  - rewrite plan_cons. cbn [mfor]. unfold bind, execute_migration at 1.
    destruct (dict_get name migrations) as [m|]; simpl.
    + destruct (mfor execute_step (up m) c) as [[[]|e] c1] eqn:Hm;
        apply mfor_execute_step_run in Hm as (tr1 & Htr1 & Hran1 & Hcur1).
      * intros Hrun. destruct (IH _ Hrun) as (tr & Htr & Hran & Hcur).
        simpl in Hran1. subst tr1. rewrite Hcur1 in * by done.
        exists (run_events (cursors c) (up m) ++ tr).
        rewrite Htr, Htr1, <-(assoc_L (++)). split; [done|].
        split; [|intros ->; rewrite Hcur, length_app by done; lia].
        destruct r; simpl in *; rewrite run_events_app; [by rewrite Hran|].
        by apply prefix_app.
      * intros [= <- <-]. exists tr1. split; [done|]. split; [|done].
        simpl in *. rewrite run_events_app. by apply prefix_app_r.
    + intros [= <- <-]. exists []. rewrite app_nil_r. split; [done|].
      split; [|done]. simpl. apply prefix_nil.
Qed.

(** *** The loop, step by step on the database *)

Lemma driver_eq op c :
  driver op c
  = (match (op (db c)).2 with None => Ok () | Some e => Raise e end,
     MkConn (op (db c)).1 (cursors c) (trace c)).
Proof. unfold driver. by destruct (op (db c)). Qed.

Lemma step_call_eq step k c :
  step_call step [] {["cur" := PyCursor k]} c
  = (match (step_effect step k (db c)).2 with None => Ok () | Some e => Raise e end,
     MkConn (step_effect step k (db c)).1 (cursors c)
            (trace c ++ [step_event step k])).
Proof.
  destruct step as [sql|f]; simpl.
  - unfold SQLStep_call, kwargs_get. rewrite lookup_singleton_eq. simpl.
    unfold cursor_execute, bind, emit. by rewrite driver_eq.
  - unfold PythonStep_call, kwargs_get. rewrite lookup_singleton_eq. simpl.
    unfold bind, emit. by rewrite driver_eq.
Qed.

Lemma conn_commit_eq c :
  conn_commit c
  = (match (sql_commit (db c)).2 with None => Ok () | Some e => Raise e end,
     MkConn (sql_commit (db c)).1 (cursors c) (trace c ++ [Commit])).
Proof. unfold conn_commit, bind, emit. by rewrite driver_eq. Qed.

(** The inner loop does to the connection what [commit_per_step] says. *)
Lemma mfor_execute_step_eq steps c :
  mfor execute_step steps c
  = let '(r, d, k, tr) := commit_per_step (cursors c) steps (db c) in
    (r, MkConn d k (trace c ++ tr)).
Proof.
  revert c. induction steps as [|step steps IH]; intros c; simpl.
  - rewrite app_nil_r. by destruct c.
  - unfold bind at 1, execute_step, bind at 1, conn_cursor.
    unfold bind at 1. rewrite step_call_eq. simpl.
    destruct (step_effect step (cursors c) (db c)) as [d1 [e|]]; simpl.
    { by rewrite <-(assoc_L (++)). }
    rewrite conn_commit_eq. simpl.
    destruct (sql_commit d1) as [d2 [e|]]; simpl.
    { by rewrite <-!(assoc_L (++)). }
    rewrite IH. simpl.
    destruct (commit_per_step (S (cursors c)) steps d2) as [[[r d3] k'] tr].
    by rewrite <-!(assoc_L (++)).
Qed.

(** When every name of the order is a key, the two loops are one loop
    over the steps of the plan. *)
Lemma execute_migrations_plan (migrations : list (string * Migration DB))
    order c :
  (∀ name, name ∈ order → name ∈ dict_keys migrations) →
  _execute_migrations migrations order c
  = mfor execute_step (plan migrations order) c.
Proof.
  unfold _execute_migrations. revert c.
  induction order as [|name order IH]; intros c Hkeys; [done|].
  rewrite plan_cons. cbn [mfor]. unfold bind, execute_migration at 1.
  destruct (proj2 (dict_get_is_Some migrations name)) as [m Hm];
    [apply Hkeys; set_solver|].
  rewrite Hm. simpl. rewrite mfor_app.
  destruct (mfor execute_step (up m) c) as [[[]|e] c1]; [|done].
  apply IH. intros ??. apply Hkeys. set_solver.
Qed.

Lemma commit_per_step_ok k steps d d' k' tr :
  commit_per_step k steps d = (Ok (), d', k', tr) →
  k' = k + length steps ∧ tr = run_events k steps.
Proof.
  revert k d tr. induction steps as [|step steps IH]; intros k d tr; simpl.
  - intros [= <- <- <-]. split; [lia|done].
  - destruct (step_effect step k d) as [d1 [e|]]; [done|].
    destruct (sql_commit d1) as [d2 [e|]]; [done|].
    destruct (commit_per_step (S k) steps d2) as [[[r d3] k3] tr3] eqn:Hrec.
    intros [= -> <- <- <-]. destruct (IH _ _ _ Hrec) as [-> ->].
    split; [lia|done].
Qed.

(** A run that raises went well up to some step: that step raised, or the
    commit after it did. *)
Lemma commit_per_step_raise k steps d e d' k' tr :
  commit_per_step k steps d = (Raise e, d', k', tr) →
  ∃ done step rest d1,
    steps = done ++ step :: rest ∧
    commit_per_step k done d
    = (Ok (), d1, k + length done, run_events k done) ∧
    k' = S (k + length done) ∧
    ((step_effect step (k + length done) d1 = (d', Some e) ∧
      tr = run_events k done
           ++ [Cursor (k + length done); step_event step (k + length done)]) ∨
     (∃ d2, step_effect step (k + length done) d1 = (d2, None) ∧
            sql_commit d2 = (d', Some e) ∧
            tr = run_events k done
                 ++ [Cursor (k + length done); step_event step (k + length done);
                     Commit])).
Proof.
  revert k d tr. induction steps as [|step steps IH]; intros k d tr; simpl; [done|].
  destruct (step_effect step k d) as [d1 [e1|]] eqn:Hstep.
  { intros [= -> <- <- <-]. exists [], step, steps, d. simpl.
    rewrite Nat.add_0_r. split; [done|]. split; [done|]. split; [done|].
    left. by rewrite Hstep. }
  destruct (sql_commit d1) as [d2 [e2|]] eqn:Hcommit.
  { intros [= -> <- <- <-]. exists [], step, steps, d. simpl.
    rewrite Nat.add_0_r. split; [done|]. split; [done|]. split; [done|].
    right. exists d1. by rewrite Hstep, Hcommit. }
  destruct (commit_per_step (S k) steps d2) as [[[r d3] k3] tr3] eqn:Hrec.
  intros [= -> <- <- <-].
  destruct (IH _ _ _ Hrec) as (done & step' & rest & d4 & -> & Hdone & -> & Hlast).
  exists (step :: done), step', rest, d4. simpl. rewrite Hstep, Hcommit, Hdone.
  replace (k + S (length done)) with (S k + length done) by lia.
  split; [done|]. split; [done|]. split; [done|].
  destruct Hlast as [[? ->]|(d5 & ? & ? & ->)]; [by left|right; by exists d5].
Qed.

Lemma step_events_app k (steps1 steps2 : list (Step DB)) :
  step_events k (steps1 ++ steps2)
  = step_events k steps1 ++ step_events (k + length steps1) steps2.
Proof.
  revert k. induction steps1 as [|s steps1 IH]; intros k; simpl.
  - by rewrite Nat.add_0_r.
  - rewrite IH. by replace (S k + length steps1) with (k + S (length steps1)) by lia.
Qed.

Lemma plan_app (migrations : list (string * Migration DB)) order1 order2 :
  plan migrations (order1 ++ order2)
  = plan migrations order1 ++ plan migrations order2.
Proof. unfold plan. apply bind_app. Qed.

(** *** What the events of a run consist of *)

Lemma applications_run_events k steps :
  applications (run_events k steps) = step_events k steps.
Proof.
  unfold applications. revert k. induction steps as [|s steps IH]; intros k;
    simpl; [done|].
  rewrite IH. by destruct s.
Qed.

Lemma commits_run_events k steps : commits (run_events k steps) = length steps.
Proof.
  unfold commits. revert k. induction steps as [|s steps IH]; intros k;
    simpl; [done|].
  destruct s; simpl; by rewrite IH.
Qed.

Lemma applications_prefix tr1 tr2 :
  tr1 `prefix_of` tr2 → applications tr1 `prefix_of` applications tr2.
Proof.
  intros [tr ->]. unfold applications. rewrite List.filter_app.
  by eexists.
Qed.

Lemma run_events_cursor k steps (cur : nat) sql :
  Execute cur sql ∈ run_events k steps → (k ≤ cur)%nat ∧ SQLStep sql ∈ steps.
Proof.
  revert k. induction steps as [|s steps IH]; intros k; simpl.
  - by intros ?%elem_of_nil.
  - rewrite !elem_of_cons. intros [?|[Hs|[?|Hin]]]; [done| |done|].
    + destruct s; simplify_eq/=. split; [lia|set_solver].
    + destruct (IH _ Hin). split; [lia|set_solver].
Qed.

Lemma run_events_invoke k steps name args kwargs :
  Invoke name args kwargs ∈ run_events k steps →
  ∃ f j, PythonStep f ∈ steps ∧ (k ≤ j)%nat ∧ name = callable_name f ∧
         args = [] ∧ kwargs = {["cur" := PyCursor j]}.
Proof.
  revert k. induction steps as [|s steps IH]; intros k; simpl.
  - by intros ?%elem_of_nil.
  - rewrite !elem_of_cons. intros [?|[Hs|[?|Hin]]]; [done| |done|].
    + destruct s as [sql|f]; simplify_eq/=. exists f, k.
      split; [set_solver|]. split; [lia|done].
    + destruct (IH _ Hin) as (f & j & ? & ? & ?). exists f, j.
      split; [set_solver|]. split; [lia|done].
Qed.

Lemma commits_app tr1 tr2 : commits (tr1 ++ tr2) = commits tr1 + commits tr2.
Proof. unfold commits. by rewrite List.filter_app, length_app. Qed.

Lemma applications_app tr1 tr2 :
  applications (tr1 ++ tr2) = applications tr1 ++ applications tr2.
Proof. unfold applications. by rewrite List.filter_app. Qed.

Lemma plan_step (migrations : list (string * Migration DB)) order step :
  step ∈ plan migrations order ↔
  ∃ name m, name ∈ order ∧ dict_get name migrations = Some m ∧ step ∈ up m.
Proof.
  unfold plan. rewrite list_elem_of_bind. split.
  - intros (name & Hstep & Hname).
    destruct (dict_get name migrations) as [m|] eqn:Hm; simpl in *;
      [|by apply elem_of_nil in Hstep].
    by exists name, m.
  - intros (name & m & Hname & Hm & Hstep).
    exists name. by rewrite Hm.
Qed.

End Engine.
End EngineFacts.

Module MainFacts.
Import Graph EngineFacts.

Section Main.
Context {DB : Type} `{!Sqlite DB}.
Implicit Types (c : Conn DB) (listing : list (DirEntry DB)) (l : Loaded DB).

(** The setup asks for one cursor and runs its four statements on it, up
    to the first that raises. *)
Lemma prologue_run (d : DB) r c1 :
  prologue (connect d) = (r, c1) →
  match r with
  | Ok cur => cur = 0 ∧ cursors c1 = 1 ∧ trace c1 = prologue_events
  | Raise _ => trace c1 `prefix_of` prologue_events
  end.
Proof.
  unfold prologue, bind, conn_cursor, connect, prologue_events. simpl.
  repeat match goal with
  | |- context [cursor_execute ?cur ?sql ?c] =>
      let r := fresh "r" in let d := fresh "d" in
      destruct (cursor_execute_run cur sql c) as (r & d & ->); simpl;
      destruct r as [[]|?];
      [|intros [= <- <-]; simpl; by eexists]
  end.
  by intros [= <- <-].
Qed.

Lemma order_migrations_run l c r c' :
  order_migrations l c = (r, c') →
  c' = c ∧
  match r with
  | Ok order =>
      Order._check_for_cycles_and_order (dict_keys (migrations l)) (aj l)
      = Some (Ok order)
  | Raise e =>
      e = DependencyCycle ∧
      Order._check_for_cycles_and_order (dict_keys (migrations l)) (aj l)
      = Some (Raise DependencyCycle)
  end.
Proof.
  unfold order_migrations.
  destruct (OrderFacts.check_total (aj l) (dict_keys (migrations l)))
    as [[order|e] Hrun]; rewrite Hrun; intros [= <- <-]; [done|].
  by destruct (OrderFacts.check_raise _ _ _ Hrun) as [-> _].
Qed.

(** The last two statements of [main]. *)
Lemma epilogue_run cur c r c' :
  (cursor_execute cur CHECKPOINT ;; cursor_execute cur DELETE_MODE) c = (r, c') →
  trace c' = trace c ++ [Execute cur CHECKPOINT] ∨
  trace c' = trace c ++ [Execute cur CHECKPOINT; Execute cur DELETE_MODE].
Proof.
  unfold bind. destruct (cursor_execute_run cur CHECKPOINT c) as (r1 & d1 & ->).
  destruct r1 as [[]|e]; [|intros [= <- <-]; by left].
  destruct (cursor_execute_run cur DELETE_MODE
              (MkConn d1 (cursors c) (trace c ++ [Execute cur CHECKPOINT])))
    as (r2 & d2 & ->).
  intros [= <- <-]. simpl. rewrite <-(assoc_L (++)). by right.
Qed.

Lemma main_run target_migration listing d :
  main_stages listing d (main target_migration listing d).1
                        (main target_migration listing d).2.
Proof.
  destruct (main target_migration listing d) as [r c] eqn:Hmain. simpl.
  revert Hmain. unfold main, main_on, bind at 1.
  destruct (prologue (connect d)) as [[cur|e] c1] eqn:Hpro;
    [|intros [= <- <-]; by eapply stop_in_setup].
  destruct (load_migrations listing no_migrations) as [[[]|e] l] eqn:Hload;
    [|intros [= <- <-]; by eapply stop_in_load].
  unfold bind at 1.
  destruct (order_migrations l c1) as [[order|e] c2] eqn:Hord;
    pose proof (order_migrations_run _ _ _ _ Hord) as [-> _];
    [|intros [= <- <-]; by eapply stop_in_order].
  unfold bind at 1.
  destruct (_execute_migrations (migrations l) order c1) as [[[]|e] c3] eqn:Hexe;
    [|intros [= <- <-]; by eapply stop_in_step].
  intros Hepi. by eapply reach_end.
Qed.

(** The trace of a run of [main]: a beginning of the setup, a beginning
    of the events of the up-steps of loaded migrations, and a beginning
    of the last two statements. *)
Lemma main_trace target_migration listing d :
  ∃ (tr_setup : list event) (steps : list (Step DB)) (tr_steps tr_end : list event),
    trace (main target_migration listing d).2 = tr_setup ++ tr_steps ++ tr_end ∧
    tr_setup `prefix_of` prologue_events ∧
    tr_steps `prefix_of` run_events 1 steps ∧
    tr_end `prefix_of` [Execute 0 CHECKPOINT; Execute 0 DELETE_MODE] ∧
    ∀ step, step ∈ steps →
      ∃ l name m, load_migrations listing no_migrations = (Ok (), l) ∧
                  dict_get name (migrations l) = Some m ∧ step ∈ up m.
Proof.
  pose proof (main_run target_migration listing d) as Hstages.
  destruct (main target_migration listing d) as [r c']. simpl in *.
  assert (∀ tr : list event, tr `prefix_of` prologue_events →
    ∃ (tr_setup : list event) (steps : list (Step DB)) (tr_steps tr_end : list event),
      tr = tr_setup ++ tr_steps ++ tr_end ∧
      tr_setup `prefix_of` prologue_events ∧
      tr_steps `prefix_of` run_events 1 steps ∧
      tr_end `prefix_of` [Execute 0 CHECKPOINT; Execute 0 DELETE_MODE] ∧
      ∀ step, step ∈ steps →
        ∃ l name m, load_migrations listing no_migrations = (Ok (), l) ∧
                    dict_get name (migrations l) = Some m ∧ step ∈ up m) as Hsetup.
  { intros tr Htr. exists tr, [], [], []. rewrite !app_nil_r.
    split; [done|]. split; [done|]. split; [done|]. split; [apply prefix_nil|].
    by intros step ?%elem_of_nil. }
  inversion Hstages as [e c1 Hpro|cur0 c1 e l Hpro Hl|cur0 c1 l e Hpro Hl Ho
                        |cur0 c1 l order e c3 Hpro Hl Ho Hexe
                        |cur0 c1 l order c3 r' c4 Hpro Hl Ho Hexe Hepi]; subst;
    apply (prologue_run d _ _) in Hpro as Hp; simpl in Hp.
  - by apply Hsetup.
  - apply Hsetup. by destruct Hp as (_ & _ & ->).
  - apply Hsetup. by destruct Hp as (_ & _ & ->).
  - destruct Hp as (_ & Hk & Hp).
    apply execute_migrations_run in Hexe as (tr & Htr & Hran%ran_prefix & _).
    rewrite Hp, Hk in *.
    exists prologue_events, (plan (migrations l) order), tr, [].
    rewrite app_nil_r. split; [done|]. split; [done|]. split; [done|].
    split; [apply prefix_nil|].
    intros step (name & m & _ & Hm & Hstep)%plan_step. by exists l, name, m.
  - destruct Hp as (-> & Hk & Hp).
    apply execute_migrations_run in Hexe as (tr & Htr & Hran & _).
    simpl in Hran. rewrite Hp, Hk in *. subst tr.
    assert (∃ tr_end : list event,
              trace c' = trace c3 ++ tr_end ∧
              tr_end `prefix_of` [Execute 0 CHECKPOINT; Execute 0 DELETE_MODE])
      as (tr_end & -> & Hend).
    { apply epilogue_run in Hepi as [-> | ->]; eexists; (split; [done|]);
        [by exists [Execute 0 DELETE_MODE]|done]. }
    exists prologue_events, (plan (migrations l) order),
      (run_events 1 (plan (migrations l) order)), tr_end.
    rewrite Htr, <-(assoc_L (++)). split; [done|]. split; [done|].
    split; [done|]. split; [done|].
    intros step (name & m & _ & Hm & Hstep)%plan_step. by exists l, name, m.
Qed.

Lemma prologue_events_quiet (tr : list event) sql :
  tr `prefix_of` prologue_events → sql = CHECKPOINT ∨ sql = DELETE_MODE →
  Execute 0 sql ∉ tr.
Proof.
  intros [tr' Htr] Hsql Hin.
  assert (Execute 0 sql ∈ prologue_events) as Hpro by (rewrite Htr; set_solver).
  unfold prologue_events in Hpro. rewrite !elem_of_cons in Hpro.
  destruct Hsql as [-> | ->];
    destruct Hpro as [?|[?|[?|[?|[?|?%elem_of_nil]]]]]; done.
Qed.

Lemma run_events_quiet k (steps : list (Step DB)) (tr : list event) sql :
  tr `prefix_of` run_events (S k) steps → Execute 0 sql ∉ tr.
Proof.
  intros [tr' Htr] Hin.
  assert (Execute 0 sql ∈ run_events (S k) steps) as Hrun by (rewrite Htr; set_solver).
  apply run_events_cursor in Hrun as [? _]. lia.
Qed.

End Main.
End MainFacts.

(** * The ordering of migrations *)

Section OrderClaims.
Import Graph OrderFacts LoadFacts.

(** A graph whose adjacency lists name only keys and that the function
    orders has no cycle. *)
Lemma acyclic_by_check (aj : gmap string (list string)) keys order :
  (∀ n m, edge aj n m → m ∈ keys) →
  Order._check_for_cycles_and_order keys aj = Some (Ok order) →
  acyclic aj.
Proof.
  intros Hkeys Hrun c Hc.
  pose proof (check_cycle aj keys c Hkeys Hc). congruence.
Qed.

(** C4.  On every acyclic adjacency dictionary the ordering function
    returns a sequence: every key is in it, no name is in it twice, and
    every key stands before each name that depends on it, directly or
    through other names. *)
Theorem order_is_topological (keys : list string)
    (aj : gmap string (list string)) :
  acyclic aj →
  ∃ order,
    Order._check_for_cycles_and_order keys aj = Some (Ok order) ∧
    NoDup order ∧
    (∀ k, k ∈ keys → k ∈ order) ∧
    (∀ d m, d ∈ keys → tc (edge aj) d m → before d m order).
Proof.
  intros Hac. destruct (check_acyclic aj keys Hac) as [order Hrun].
  exists order. split; [done|].
  destruct (check_ok aj keys order Hrun) as (Hnd & Ht & Hall & _).
  split; [done|]. split; [done|].
  intros d m Hd Hdm. apply (topo_before aj); auto.
Qed.

(** C9.  When the ordering of what [main] loaded returns, its result is
    a permutation of the keys of the migration dictionary: a name that is
    only depended upon, and not itself loaded, is not in it. *)
Theorem order_is_permutation_of_keys {DB : Type}
    (listing : list (DirEntry DB)) (l : Loaded DB) (order : list string) :
  load_migrations listing no_migrations = (Ok (), l) →
  Order._check_for_cycles_and_order (dict_keys (migrations l)) (aj l)
  = Some (Ok order) →
  order ≡ₚ dict_keys (migrations l) ∧
  ∀ d, d ∉ dict_keys (migrations l) → d ∉ order.
Proof.
  intros [Hnd _ Hedges _]%load_migrations_inv Hrun.
  pose proof (check_permutation _ _ _ Hnd Hedges Hrun) as Hperm.
  split; [done|]. intros d Hd. by rewrite Hperm.
Qed.

(** C2, as the code has it.  A dependency on a name that no loaded file
    defines raises nothing of its own: the ordering either returns
    exactly the loaded names, the absent name left out, or raises
    [DependencyCycle] because the loaded migrations form a cycle. *)
Theorem absent_dependency_is_dropped {DB : Type}
    (listing : list (DirEntry DB)) (l : Loaded DB) (e : DirEntry DB)
    (d : string) :
  load_migrations listing no_migrations = (Ok (), l) →
  e ∈ listing → skipped e = false → d ∈ depends_on (m_mod e) →
  d ∉ dict_keys (migrations l) →
  edge (aj l) d (m_name e) ∧
  match Order._check_for_cycles_and_order (dict_keys (migrations l)) (aj l) with
  | Some (Ok order) =>
      order ≡ₚ dict_keys (migrations l) ∧ m_name e ∈ order ∧ d ∉ order
  | Some (Raise err) => err = DependencyCycle ∧ ∃ c, tc (edge (aj l)) c c
  | None => False
  end.
Proof.
  intros Hload He Hs Hd Hkey.
  assert (edge (aj l) d (m_name e)) as Hedge.
  { apply (load_migrations_edges _ _ _ _ _ Hload). right. by exists e. }
  split; [done|].
  pose proof (load_migrations_inv _ _ _ Hload) as [Hnd _ Hedges _].
  destruct (check_total (aj l) (dict_keys (migrations l))) as [[order|err] Hrun];
    rewrite Hrun.
  - pose proof (check_permutation _ _ _ Hnd Hedges Hrun) as Hperm.
    split; [done|]. rewrite Hperm. split; [by eapply Hedges|done].
  - by apply check_raise in Hrun.
Qed.

(** C5.  When the dependencies [main] loaded contain a cycle, the
    ordering raises [DependencyCycle] and the run ends there: [main]
    raises, and its trace holds nothing beyond the setup statements, so
    no cursor was opened for a step, no step was applied and nothing was
    committed. *)
Theorem cycle_is_detected {DB : Type} `{!Sqlite DB}
    (target_migration : string) (listing : list (DirEntry DB))
    (l : Loaded DB) (d : DB) :
  load_migrations listing no_migrations = (Ok (), l) →
  (∃ c, tc (edge (aj l)) c c) →
  Order._check_for_cycles_and_order (dict_keys (migrations l)) (aj l)
  = Some (Raise DependencyCycle) ∧
  (∃ e, (main target_migration listing d).1 = Raise e) ∧
  (∀ cur c1, prologue (connect d) = (Ok cur, c1) →
             main target_migration listing d = (Raise DependencyCycle, c1)) ∧
  trace (main target_migration listing d).2 `prefix_of` prologue_events.
Proof.
  intros Hload [c Hc].
  pose proof (load_migrations_inv _ _ _ Hload) as [_ _ Hedges _].
  pose proof (check_cycle _ _ _ Hedges Hc) as Hrun. split; [done|].
  assert (∀ c1 : Conn DB, order_migrations l c1 = (Raise DependencyCycle, c1)) as Hord.
  { intros c1. unfold order_migrations. by rewrite Hrun. }
  destruct (main target_migration listing d) as [r c'] eqn:Hmain.
  pose proof (MainFacts.main_run target_migration listing d) as Hstages.
  rewrite Hmain in Hstages. simpl in *.
  inversion Hstages as [e c1 Hpro|cur c1 e l' Hpro Hl|cur c1 l' e Hpro Hl Ho
                        |cur c1 l' order e c3 Hpro Hl Ho
                        |cur c1 l' order c3 r' c4 Hpro Hl Ho]; subst.
  - split; [eauto|]. split; [intros ??; congruence|].
    by apply (MainFacts.prologue_run d _ _) in Hpro.
  - congruence.
  - assert (l' = l) as -> by congruence. rewrite Hord in Ho.
    injection Ho as <-. split; [eauto|].
    apply (MainFacts.prologue_run d _ _) in Hpro as Hp. destruct Hp as (_ & _ & ->).
    split; [|done]. intros ?? Hpro'. rewrite Hpro in Hpro'. congruence.
  - assert (l' = l) as -> by congruence. rewrite Hord in Ho. congruence.
  - assert (l' = l) as -> by congruence. rewrite Hord in Ho. congruence.
Qed.

End OrderClaims.

(** * Execution and the coordinator *)

Section EngineClaims.
Import Graph LoadFacts EngineFacts MainFacts.
Context {DB : Type} `{!Sqlite DB}.

(** C1, as the code has it.  [_execute_migrations] commits once per
    up-step, not once per migration.  When every name of the order is a
    key of the dictionary, the run is exactly [commit_per_step] on the
    plan: step after step a fresh cursor, the step and, at once, a commit.
    A run that returns has issued as many commits as there are up-steps.
    A run that raises went through some steps of the plan, each with its
    commit, and then stopped at the next: either that step raised, and
    the commits are those of the steps before it, or the commit after it
    raised.  The steps before the failure are those of the migrations
    before and of the failing migration itself, and their commits stand. *)
Theorem execute_commits_after_each_step
    (migrations : list (string * Migration DB)) (migrations_order : list string)
    (c : Conn DB) :
  (∀ name, name ∈ migrations_order → name ∈ dict_keys migrations) →
  ∃ r d k tr,
    commit_per_step (cursors c) (plan migrations migrations_order) (db c)
    = (r, d, k, tr) ∧
    _execute_migrations migrations migrations_order c
    = (r, MkConn d k (trace c ++ tr)) ∧
    match r with
    | Ok _ =>
        tr = run_events (cursors c) (plan migrations migrations_order) ∧
        commits tr = length (plan migrations migrations_order)
    | Raise e =>
        ∃ done step rest d1,
          plan migrations migrations_order = done ++ step :: rest ∧
          commit_per_step (cursors c) done (db c)
          = (Ok (), d1, cursors c + length done, run_events (cursors c) done) ∧
          ((step_effect step (cursors c + length done) d1 = (d, Some e) ∧
            tr = run_events (cursors c) done
                 ++ [Cursor (cursors c + length done);
                     step_event step (cursors c + length done)] ∧
            commits tr = length done) ∨
           (∃ d2, step_effect step (cursors c + length done) d1 = (d2, None) ∧
                  sql_commit d2 = (d, Some e) ∧
                  tr = run_events (cursors c) done
                       ++ [Cursor (cursors c + length done);
                           step_event step (cursors c + length done); Commit] ∧
                  commits tr = S (length done)))
    end.
Proof.
  intros Hkeys. rewrite (execute_migrations_plan _ _ _ Hkeys).
  rewrite mfor_execute_step_eq.
  destruct (commit_per_step (cursors c) (plan migrations migrations_order) (db c))
    as [[[r d] k] tr] eqn:Hrun.
  exists r, d, k, tr. split; [done|]. split; [done|]. destruct r as [[]|e].
  - apply commit_per_step_ok in Hrun as [_ ->].
    split; [done|]. apply commits_run_events.
  - apply commit_per_step_raise in Hrun
      as (done & step & rest & d1 & Hplan & Hdone & _ & Hlast).
    exists done, step, rest, d1. split; [done|]. split; [done|].
    destruct Hlast as [[Hstep ->]|(d2 & Hstep & Hcommit & ->)]; [left|right].
    + split; [done|]. split; [done|].
      rewrite commits_app, commits_run_events. unfold commits. destruct step; simpl; lia.
    + exists d2. split; [done|]. split; [done|]. split; [done|].
      rewrite commits_app, commits_run_events. unfold commits. destruct step; simpl; lia.
Qed.

(** C7.  [_execute_migrations] applies the up-steps of the migrations in
    the order of the sequence and, within a migration, in their listed
    order.  The plan has the up-steps of a migration after all those of
    the names before it in the sequence and before all those of the names
    after it.  When every name of the sequence is a key of the
    dictionary, the run is exactly the steps of the plan applied one
    after the other on the database, each on its own fresh cursor, up to
    the first step or commit that raises: a run that returns has applied
    all of them in the plan's order, a run that raises has applied a
    beginning of the plan, up to and including the step it stopped at,
    and nothing after it. *)
Theorem execute_applies_in_order
    (migrations : list (string * Migration DB)) (migrations_order : list string)
    (c : Conn DB) :
  (∀ name, name ∈ migrations_order → name ∈ dict_keys migrations) →
  (∀ earlier name later m,
      migrations_order = earlier ++ name :: later →
      dict_get name migrations = Some m →
      plan migrations migrations_order
      = plan migrations earlier ++ up m ++ plan migrations later) ∧
  ∃ r d k tr,
    commit_per_step (cursors c) (plan migrations migrations_order) (db c)
    = (r, d, k, tr) ∧
    _execute_migrations migrations migrations_order c
    = (r, MkConn d k (trace c ++ tr)) ∧
    match r with
    | Ok _ =>
        applications tr
        = step_events (cursors c) (plan migrations migrations_order)
    | Raise _ =>
        ∃ done step rest,
          plan migrations migrations_order = done ++ step :: rest ∧
          applications tr = step_events (cursors c) (done ++ [step])
    end.
Proof.
  intros Hkeys. split.
  { intros earlier name later m -> Hm. rewrite plan_app, plan_cons, Hm. done. }
  rewrite (execute_migrations_plan _ _ _ Hkeys), mfor_execute_step_eq.
  destruct (commit_per_step (cursors c) (plan migrations migrations_order) (db c))
    as [[[r d] k] tr] eqn:Hrun.
  exists r, d, k, tr. split; [done|]. split; [done|]. destruct r as [[]|e].
  - apply commit_per_step_ok in Hrun as [_ ->]. apply applications_run_events.
  - apply commit_per_step_raise in Hrun
      as (done & step & rest & d1 & Hplan & _ & _ & Hlast).
    exists done, step, rest. split; [done|].
    rewrite step_events_app. simpl.
    destruct Hlast as [[_ ->]|(d2 & _ & _ & ->)];
      rewrite applications_app, applications_run_events; by destruct step.
Qed.

(** C3, as the code has it.  No row is written to the bookkeeping table
    when a migration completes.  The calls a run of [main] makes are a
    beginning of the setup, then for up-steps of loaded migrations a
    fresh cursor, the step and a commit, then the checkpoint and the
    return to the default journal mode, and nothing else.  So a statement
    executed by [main], by [_execute_migrations] or by an [SQLStep] is
    one of the six statements of the coordinator, on the coordinator's
    cursor, or the stored SQL of an up-step of a loaded migration, on a
    cursor of its own; of the six, only [CREATE TABLE IF NOT EXISTS]
    names the bookkeeping table.  The only other code that is given a
    cursor is the callable of a [PythonStep] among those up-steps. *)
Theorem main_executes_only_steps (target_migration : string)
    (listing : list (DirEntry DB)) (d : DB) :
  ∃ (tr_setup : list event) (steps : list (Step DB)) (tr_steps tr_end : list event),
    trace (main target_migration listing d).2 = tr_setup ++ tr_steps ++ tr_end ∧
    tr_setup `prefix_of` prologue_events ∧
    tr_steps `prefix_of` run_events 1 steps ∧
    tr_end `prefix_of` [Execute 0 CHECKPOINT; Execute 0 DELETE_MODE] ∧
    (∀ step, step ∈ steps →
       ∃ l name m, load_migrations listing no_migrations = (Ok (), l) ∧
                   dict_get name (migrations l) = Some m ∧ step ∈ up m) ∧
    (∀ cur sql,
       Execute cur sql ∈ trace (main target_migration listing d).2 →
       (cur = 0 ∧ sql ∈ coordinator_statements) ∨
       ((1 ≤ cur)%nat ∧ SQLStep sql ∈ steps)) ∧
    (∀ name args kwargs,
       Invoke name args kwargs ∈ trace (main target_migration listing d).2 →
       ∃ f cur, PythonStep f ∈ steps ∧ (1 ≤ cur)%nat ∧ name = callable_name f ∧
                args = [] ∧ kwargs = {["cur" := PyCursor cur]}) ∧
    (∀ sql, sql ∈ coordinator_statements → names_table sql = true →
            sql = CREATE_TABLE).
Proof.
  destruct (main_trace target_migration listing d)
    as (tr_setup & steps & tr_steps & tr_end & Htr & Hsetup & Hsteps & Hend & Hup).
  exists tr_setup, steps, tr_steps, tr_end.
  split; [done|]. split; [done|]. split; [done|]. split; [done|].
  split; [done|]. rewrite Htr.
  destruct Hsetup as [tr1 Hsetup], Hsteps as [tr2 Hsteps], Hend as [tr3 Hend].
  split; [|split].
  - intros cur sql [Hin|[Hin|Hin]%elem_of_app]%elem_of_app.
    + left. assert (Execute cur sql ∈ prologue_events) as Hpro
        by (rewrite Hsetup; set_solver).
      unfold prologue_events in Hpro. rewrite !elem_of_cons in Hpro.
      unfold coordinator_statements.
      destruct Hpro as [?|[?|[?|[?|[?|?%elem_of_nil]]]]]; simplify_eq;
        (split; [done|set_solver]).
    + right. assert (Execute cur sql ∈ run_events 1 steps) as Hrun
        by (rewrite Hsteps; set_solver).
      by apply run_events_cursor in Hrun.
    + left. assert (Execute cur sql ∈ [Execute 0 CHECKPOINT; Execute 0 DELETE_MODE])
        as Hepi by (rewrite Hend; set_solver).
      rewrite !elem_of_cons in Hepi. unfold coordinator_statements.
      destruct Hepi as [?|[?|?%elem_of_nil]]; simplify_eq;
        (split; [done|set_solver]).
  - intros name args kwargs [Hin|[Hin|Hin]%elem_of_app]%elem_of_app.
    + assert (Invoke name args kwargs ∈ prologue_events) as Hpro
        by (rewrite Hsetup; set_solver).
      unfold prologue_events in Hpro. rewrite !elem_of_cons in Hpro.
      by destruct Hpro as [?|[?|[?|[?|[?|?%elem_of_nil]]]]].
    + assert (Invoke name args kwargs ∈ run_events 1 steps) as Hrun
        by (rewrite Hsteps; set_solver).
      apply run_events_invoke in Hrun as (f & j & ? & ? & ?). by exists f, j.
    + assert (Invoke name args kwargs
              ∈ [Execute 0 CHECKPOINT; Execute 0 DELETE_MODE]) as Hepi
        by (rewrite Hend; set_solver).
      rewrite !elem_of_cons in Hepi.
      by destruct Hepi as [?|[?|?%elem_of_nil]].
  - intros sql Hsql. unfold coordinator_statements in Hsql.
    rewrite !elem_of_cons in Hsql.
    destruct Hsql as [->|[->|[->|[->|[->|[->|?%elem_of_nil]]]]]];
      try done; by vm_compute.
Qed.

(** C6.  A run of [main] that fails while setting up, loading, ordering
    or applying a step raises that failure without the coordinator having
    executed the WAL checkpoint or the return to the default journal
    mode; and when the coordinator did execute the checkpoint, every
    stage before it had succeeded and every step of the plan had been
    applied and committed. *)
Theorem no_checkpoint_on_failure (target_migration : string)
    (listing : list (DirEntry DB)) (d : DB) :
  (∀ e, fails_before_checkpoint listing d e →
        (main target_migration listing d).1 = Raise e ∧
        (Execute 0 CHECKPOINT ∉ trace (main target_migration listing d).2) ∧
        (Execute 0 DELETE_MODE ∉ trace (main target_migration listing d).2)) ∧
  (Execute 0 CHECKPOINT ∈ trace (main target_migration listing d).2 →
   ∃ l order tr,
     load_migrations listing no_migrations = (Ok (), l) ∧
     Order._check_for_cycles_and_order (dict_keys (migrations l)) (aj l)
     = Some (Ok order) ∧
     trace (main target_migration listing d).2
     = prologue_events ++ run_events 1 (plan (migrations l) order) ++ tr ∧
     (tr = [Execute 0 CHECKPOINT] ∨
      tr = [Execute 0 CHECKPOINT; Execute 0 DELETE_MODE])).
Proof.
  pose proof (main_run target_migration listing d) as Hstages.
  destruct (main target_migration listing d) as [r c']. simpl in *.
  assert (∀ sql, sql = CHECKPOINT ∨ sql = DELETE_MODE →
            (∃ e, r = Raise e ∧ fails_before_checkpoint listing d e) →
            Execute 0 sql ∉ trace c') as Hquiet.
  { intros sql Hsql (e' & -> & Hfail).
    inversion Hstages as [e c1 Hpro|cur c1 e l Hpro Hl|cur c1 l e Hpro Hl Ho
                          |cur c1 l order e c3 Hpro Hl Ho Hexe
                          |cur c1 l order c3 r' c4 Hpro Hl Ho Hexe Hepi]; subst;
      apply (prologue_run d _ _) in Hpro as Hp.
    - by apply prologue_events_quiet.
    - destruct Hp as (_ & _ & ->). by apply prologue_events_quiet.
    - destruct Hp as (_ & _ & ->). by apply prologue_events_quiet.
    - destruct Hp as (_ & Hk & Hp).
      apply execute_migrations_run in Hexe as (tr & -> & Hran%ran_prefix & _).
      rewrite Hp, Hk in *. rewrite not_elem_of_app. split.
      + by apply prologue_events_quiet.
      + by eapply run_events_quiet.
    - exfalso. inversion Hfail; congruence. }
  assert (∀ e, fails_before_checkpoint listing d e → r = Raise e) as Hraise.
  { intros e Hfail.
    inversion Hstages as [e1 c1 Hpro|cur c1 e1 l Hpro Hl|cur c1 l e1 Hpro Hl Ho
                          |cur c1 l order e1 c3 Hpro Hl Ho Hexe
                          |cur c1 l order c3 r' c4 Hpro Hl Ho Hexe Hepi]; subst;
      inversion Hfail; congruence. }
  split.
  - intros e Hfail. pose proof (Hraise e Hfail) as ->.
    split; [done|]. split; apply Hquiet; eauto.
  - intros Hin.
    inversion Hstages as [e c1 Hpro|cur c1 e l Hpro Hl|cur c1 l e Hpro Hl Ho
                          |cur c1 l order e c3 Hpro Hl Ho Hexe
                          |cur c1 l order c3 r' c4 Hpro Hl Ho Hexe Hepi]; subst.
    1-4: exfalso; revert Hin; apply Hquiet; [by left|];
         eexists; split; [done|];
         eauto using fails_in_setup, fails_in_load, fails_in_order, fails_in_step.
    apply (prologue_run d _ _) in Hpro as (-> & Hk & Hp).
    apply order_migrations_run in Ho as [_ Ho].
    apply execute_migrations_run in Hexe as (tr & Htr & Hran & _).
    simpl in Hran. rewrite Hp, Hk in *. subst tr.
    apply epilogue_run in Hepi. rewrite Htr in Hepi.
    rewrite <-!(assoc_L (++)) in Hepi.
    destruct Hepi as [Hepi|Hepi]; eexists l, order, _;
      (split; [done|]); (split; [done|]); (split; [exact Hepi|]); auto.
Qed.

(** C8, as the code has it.  When the loop over the folder comes to a
    migration file named [latest], the files before it having loaded
    without raising, it raises [ForbiddenMigrationName] whatever that
    file holds: the file is not imported and not validated, the locals
    are left exactly as loading the files before it left them, with the
    name in none of the migration dictionary, the adjacency lists and the
    roots, and the files after it are never looked at.  The files before
    it have been loaded by then: each is a key of the dictionary and is
    listed in the adjacency dictionary under each of its dependencies.
    [main] raises before ordering and before applying any step, and its
    trace holds nothing beyond the setup statements. *)
Theorem latest_is_rejected (target_migration : string)
    (earlier later : list (DirEntry DB)) (e : DirEntry DB) (d : DB) :
  loading_error earlier = None →
  skipped e = false → m_name e = LM_LATEST_ALIAS →
  (load_migrations earlier no_migrations).1 = Ok () ∧
  load_migrations (earlier ++ e :: later) no_migrations
  = (Raise ForbiddenMigrationName, (load_migrations earlier no_migrations).2) ∧
  (LM_LATEST_ALIAS
   ∉ dict_keys (migrations (load_migrations earlier no_migrations).2)) ∧
  (∀ n, LM_LATEST_ALIAS ∉ aj_get (aj (load_migrations earlier no_migrations).2) n) ∧
  (LM_LATEST_ALIAS ∉ roots (load_migrations earlier no_migrations).2) ∧
  (∀ e0, e0 ∈ earlier → skipped e0 = false →
     m_name e0 ∈ dict_keys (migrations (load_migrations earlier no_migrations).2) ∧
     ∀ dep, dep ∈ depends_on (m_mod e0) →
            edge (aj (load_migrations earlier no_migrations).2) dep (m_name e0)) ∧
  (∃ err, (main target_migration (earlier ++ e :: later) d).1 = Raise err) ∧
  (∀ cur c1, prologue (connect d) = (Ok cur, c1) →
             main target_migration (earlier ++ e :: later) d
             = (Raise ForbiddenMigrationName, c1)) ∧
  trace (main target_migration (earlier ++ e :: later) d).2
    `prefix_of` prologue_events.
Proof.
  intros Hearlier Hs Hn.
  assert (entry_error e = Some ForbiddenMigrationName) as He.
  { unfold entry_error. by rewrite Hs, Hn. }
  destruct (load_migrations_stops earlier later e _ no_migrations Hearlier He)
    as [Hok Hload].
  rewrite (load_entry_latest e _ Hs Hn) in Hload. simpl in Hload.
  split; [done|]. split; [done|].
  destruct (load_migrations earlier no_migrations) as [r l] eqn:Hl. simpl in *.
  pose proof (load_migrations_inv _ _ _ Hl) as [_ Hkeys Hedges Hroots].
  split; [done|]. split; [intros n Hin; by apply Hkeys, (Hedges n)|].
  split; [intros Hr; by apply Hkeys, Hroots|]. subst r. split.
  { intros e0 He0 Hs0. split.
    - apply (load_migrations_keys _ _ _ _ Hl). right.
      apply elem_of_discovered. by exists e0.
    - intros dep Hdep. apply (load_migrations_edges _ _ _ _ _ Hl). right.
      by exists e0. }
  destruct (main target_migration (earlier ++ e :: later) d) as [r' c'] eqn:Hmain.
  pose proof (main_run target_migration (earlier ++ e :: later) d) as Hstages.
  rewrite Hmain in Hstages. simpl in *.
  inversion Hstages as [e1 c1 Hpro|cur c1 e1 l' Hpro Hl'|cur c1 l' e1 Hpro Hl' Ho
                        |cur c1 l' order e1 c3 Hpro Hl' Ho
                        |cur c1 l' order c3 r'' c4 Hpro Hl' Ho]; subst;
    try congruence.
  - split; [eauto|]. split; [intros ??; congruence|].
    by apply (prologue_run d _ _) in Hpro.
  - assert (e1 = ForbiddenMigrationName) as -> by congruence. split; [eauto|].
    apply (prologue_run d _ _) in Hpro as Hp. destruct Hp as (_ & _ & ->).
    split; [|done]. intros ?? Hpro'. rewrite Hpro in Hpro'. congruence.
Qed.

(** C10.  A built-in step called without a truthy [cur] keyword raises
    [AssertionError] and leaves the connection as it was: nothing was
    executed, no callable was called.  Called with a cursor, [SQLStep]
    does exactly what executing its stored SQL on that cursor does, and
    [PythonStep] calls its callable with the arguments it was given. *)
Theorem step_asserts_cursor :
  (∀ (step : Step DB) args kwargs (c : Conn DB),
      truthy (kwargs_get kwargs "cur") = false →
      step_call step args kwargs c = (Raise AssertionError, c)) ∧
  (∀ _sql args kwargs k (c : Conn DB),
      kwargs_get kwargs "cur" = PyCursor k →
      step_call (SQLStep _sql) args kwargs c = cursor_execute k _sql c ∧
      ∃ r d', step_call (SQLStep _sql) args kwargs c
              = (r, MkConn d' (cursors c) (trace c ++ [Execute k _sql]))) ∧
  (∀ _callable args kwargs (c : Conn DB),
      truthy (kwargs_get kwargs "cur") = true →
      ∃ r d', step_call (PythonStep _callable) args kwargs c
              = (r, MkConn d' (cursors c)
                      (trace c ++ [Invoke (callable_name _callable) args kwargs])) ∧
              (d', match r with Ok _ => None | Raise e => Some e end)
              = callable_run _callable args kwargs (db c)).
Proof.
  split; [|split].
  - intros [sql|f] args kwargs c Hcur; simpl;
      unfold SQLStep_call, PythonStep_call; by rewrite Hcur.
  - intros sql args kwargs k c Hcur. simpl. unfold SQLStep_call.
    rewrite Hcur. simpl. split; [done|]. apply cursor_execute_run.
  - intros f args kwargs c Hcur. simpl. unfold PythonStep_call.
    rewrite Hcur. unfold bind, emit, driver. simpl.
    destruct (callable_run f args kwargs (db c)) as [d' [e|]]; eauto.
Qed.

End EngineClaims.

(** * The properties on concrete folders *)

Section Instances.
Import Graph OrderFacts LoadFacts Journal Scenario.

Lemma loaded_ok (listing : list (DirEntry journal)) :
  (load_migrations listing no_migrations).1 = Ok () →
  load_migrations listing no_migrations = (Ok (), loaded listing).
Proof.
  unfold loaded. destruct (load_migrations listing no_migrations) as [[[]|e] l];
    simpl; by intros [=].
Qed.

Lemma chain_loaded : load_migrations chain no_migrations = (Ok (), loaded chain).
Proof. by apply loaded_ok. Qed.

Lemma chain_acyclic : acyclic (aj (loaded chain)).
Proof.
  apply (acyclic_by_check _ (dict_keys (migrations (loaded chain))) ["root"; "child"]).
  - apply (load_migrations_inv _ _ _ chain_loaded).
  - by vm_compute.
Qed.

Lemma cyclic_has_cycle : ∃ c, tc (edge (aj (loaded cyclic))) c c.
Proof.
  exists "a". apply (tc_l _ "a" "b" "a"); [|apply tc_once];
    unfold edge; vm_compute; apply list_elem_of_here.
Qed.

(** C4 on [chain]: [root] comes before [child], though the folder lists
    [child] first. *)
Lemma order_is_topological_witness :
  acyclic (aj (loaded chain)) ∧
  ∃ order,
    Order._check_for_cycles_and_order ["child"; "root"] (aj (loaded chain))
    = Some (Ok order) ∧
    NoDup order ∧
    (∀ k, k ∈ ["child"; "root"] → k ∈ order) ∧
    (∀ d m, d ∈ ["child"; "root"] → tc (edge (aj (loaded chain))) d m →
            before d m order).
Proof.
  split; [exact chain_acyclic|].
  exact (order_is_topological ["child"; "root"] (aj (loaded chain)) chain_acyclic).
Defined.

Example chain_order :
  Order._check_for_cycles_and_order ["child"; "root"] (aj (loaded chain))
  = Some (Ok ["root"; "child"]).
Proof. by vm_compute. Qed.

(** C9 on [orphaned]. *)
Lemma order_is_permutation_of_keys_witness :
  ["orphan"] ≡ₚ dict_keys (migrations (loaded orphaned)) ∧
  ∀ d, d ∉ dict_keys (migrations (loaded orphaned)) → d ∉ ["orphan"].
Proof.
  apply (order_is_permutation_of_keys orphaned (loaded orphaned) ["orphan"]).
  - apply loaded_ok. reflexivity.
  - vm_compute. reflexivity.
Defined.

(** C2 as stated fails on [orphaned]: [orphan] depends on [ghost], no
    file defines [ghost], and yet the ordering returns and the whole run
    succeeds, [orphan]'s step applied and committed. *)
Lemma absent_dependency_not_detected :
  "ghost" ∈ depends_on (m_mod (file "orphan" (migration [SQLStep CREATE_T] ["ghost"]))) ∧
  ("ghost" ∉ dict_keys (migrations (loaded orphaned))) ∧
  Order._check_for_cycles_and_order
    (dict_keys (migrations (loaded orphaned))) (aj (loaded orphaned))
  = Some (Ok ["orphan"]) ∧
  (main "latest" orphaned empty).1 = Ok () ∧
  committed (db (main "latest" orphaned empty).2)
  = [WAL_MODE; NO_AUTOCHECKPOINT; BEGIN_IMMEDIATE; CREATE_TABLE; CREATE_T].
Proof.
  split; [apply list_elem_of_here|]. split; [|by vm_compute].
  vm_compute. by intros [=]%list_elem_of_singleton.
Qed.

(** C2 as amended, on [orphaned]. *)
Lemma absent_dependency_is_dropped_witness :
  edge (aj (loaded orphaned)) "ghost" "orphan" ∧
  match Order._check_for_cycles_and_order
          (dict_keys (migrations (loaded orphaned))) (aj (loaded orphaned)) with
  | Some (Ok order) =>
      order ≡ₚ dict_keys (migrations (loaded orphaned)) ∧
      "orphan" ∈ order ∧ "ghost" ∉ order
  | Some (Raise err) =>
      err = DependencyCycle ∧ ∃ c, tc (edge (aj (loaded orphaned))) c c
  | None => False
  end.
Proof.
  apply (absent_dependency_is_dropped orphaned (loaded orphaned)
           (file "orphan" (migration [SQLStep CREATE_T] ["ghost"])) "ghost").
  - apply loaded_ok. reflexivity.
  - apply list_elem_of_here.
  - reflexivity.
  - apply list_elem_of_here.
  - vm_compute. by intros [=]%list_elem_of_singleton.
Defined.

(** C5 on [cyclic]. *)
Lemma cycle_is_detected_witness :
  Order._check_for_cycles_and_order
    (dict_keys (migrations (loaded cyclic))) (aj (loaded cyclic))
  = Some (Raise DependencyCycle) ∧
  (∃ e, (main "latest" cyclic empty).1 = Raise e) ∧
  (∀ cur c1, prologue (connect empty) = (Ok cur, c1) →
             main "latest" cyclic empty = (Raise DependencyCycle, c1)) ∧
  trace (main "latest" cyclic empty).2 `prefix_of` prologue_events.
Proof.
  apply (cycle_is_detected "latest" cyclic (loaded cyclic) empty).
  - apply loaded_ok. reflexivity.
  - exact cyclic_has_cycle.
Defined.

(** C1 as stated fails on [single] and on [broken]: the one migration of
    [single] is committed twice, once after each of its two steps; and
    the migration of [broken] fails at its second step with its first
    step committed. *)
Lemma commit_not_once_per_migration :
  let run := _execute_migrations (migrations (loaded single)) ["initial"]
               (connect empty) in
  let failed := _execute_migrations (migrations (loaded broken)) ["initial"]
                  (connect empty) in
  run.1 = Ok () ∧
  trace run.2 = [Cursor 0; Execute 0 CREATE_T; Commit;
                 Cursor 1; Execute 1 CREATE_U; Commit] ∧
  commits (trace run.2) = 2 ∧
  failed.1 = Raise (DatabaseError "FAIL") ∧
  trace failed.2 = [Cursor 0; Execute 0 CREATE_T; Commit;
                    Cursor 1; Execute 1 "FAIL"] ∧
  committed (db failed.2) = [CREATE_T].
Proof. by vm_compute. Qed.

(** C1 as amended, on [broken]: the run is that of [commit_per_step],
    and it stops at the second step with the first committed. *)
Lemma execute_commits_after_each_step_witness :
  (∀ name, name ∈ ["initial"] → name ∈ dict_keys (migrations (loaded broken))) ∧
  commit_per_step 0 (plan (migrations (loaded broken)) ["initial"]) empty
  = (Raise (DatabaseError "FAIL"), MkJournal [CREATE_T] [], 2,
     [Cursor 0; Execute 0 CREATE_T; Commit; Cursor 1; Execute 1 "FAIL"]) ∧
  _execute_migrations (migrations (loaded broken)) ["initial"] (connect empty)
  = (Raise (DatabaseError "FAIL"),
     MkConn (MkJournal [CREATE_T] []) 2
       [Cursor 0; Execute 0 CREATE_T; Commit; Cursor 1; Execute 1 "FAIL"]).
Proof.
  assert (∀ name, name ∈ ["initial"] →
                  name ∈ dict_keys (migrations (loaded broken))) as Hkeys.
  { intros name ->%list_elem_of_singleton. vm_compute. apply list_elem_of_here. }
  split; [exact Hkeys|].
  destruct (execute_commits_after_each_step (migrations (loaded broken))
              ["initial"] (connect empty) Hkeys)
    as (r & d & k & tr & Hrun & Hexe & _).
  rewrite Hexe. vm_compute in Hrun. injection Hrun as <- <- <- <-.
  split; reflexivity.
Defined.

(** C7 on [chain], in the order the ordering computed: the run returns,
    with the step of [root] applied before that of [child]. *)
Lemma execute_applies_in_order_witness :
  (∀ name, name ∈ ["root"; "child"] →
           name ∈ dict_keys (migrations (loaded chain))) ∧
  plan (migrations (loaded chain)) ["root"; "child"]
  = [SQLStep CREATE_T; SQLStep CREATE_U] ∧
  _execute_migrations (migrations (loaded chain)) ["root"; "child"] (connect empty)
  = (Ok (),
     MkConn (MkJournal [CREATE_T; CREATE_U] []) 2
       [Cursor 0; Execute 0 CREATE_T; Commit; Cursor 1; Execute 1 CREATE_U; Commit]).
Proof.
  assert (∀ name, name ∈ ["root"; "child"] →
                  name ∈ dict_keys (migrations (loaded chain))) as Hkeys.
  { intros name [->| ->%list_elem_of_singleton]%elem_of_cons; vm_compute.
    - apply list_elem_of_further, list_elem_of_here.
    - apply list_elem_of_here. }
  split; [exact Hkeys|]. split; [reflexivity|].
  destruct (execute_applies_in_order (migrations (loaded chain))
              ["root"; "child"] (connect empty) Hkeys)
    as (_ & r & d & k & tr & Hrun & Hexe & _).
  rewrite Hexe. vm_compute in Hrun. injection Hrun as <- <- <- <-.
  reflexivity.
Defined.

Example chain_applications :
  step_events 0 (plan (migrations (loaded chain)) ["root"; "child"])
  = [Execute 0 CREATE_T; Execute 1 CREATE_U].
Proof. by vm_compute. Qed.

(** C3 as stated fails on [single]: the migration completes both its
    up-steps and the run succeeds, and the eight statements below are
    all that was executed; none writes a row to the bookkeeping table. *)
Lemma no_bookkeeping_row_written :
  let run := main "latest" single empty in
  run.1 = Ok () ∧
  trace run.2 = [Cursor 0; Execute 0 WAL_MODE; Execute 0 NO_AUTOCHECKPOINT;
                 Execute 0 BEGIN_IMMEDIATE; Execute 0 CREATE_TABLE;
                 Cursor 1; Execute 1 CREATE_T; Commit;
                 Cursor 2; Execute 2 CREATE_U; Commit;
                 Execute 0 CHECKPOINT; Execute 0 DELETE_MODE] ∧
  committed (db run.2) ++ pending (db run.2)
  = [WAL_MODE; NO_AUTOCHECKPOINT; BEGIN_IMMEDIATE; CREATE_TABLE;
     CREATE_T; CREATE_U; CHECKPOINT; DELETE_MODE].
Proof. by vm_compute. Qed.

(** A step may write to the bookkeeping table itself: the callable of
    [self_recording] does, and the trace has its call. *)
Example callable_may_write_bookkeeping :
  let run := main "latest" self_recording empty in
  run.1 = Ok () ∧
  trace run.2 = [Cursor 0; Execute 0 WAL_MODE; Execute 0 NO_AUTOCHECKPOINT;
                 Execute 0 BEGIN_IMMEDIATE; Execute 0 CREATE_TABLE;
                 Cursor 1; Execute 1 CREATE_T; Commit;
                 Cursor 2; Invoke "record_migration" [] {["cur" := PyCursor 2]};
                 Commit;
                 Execute 0 CHECKPOINT; Execute 0 DELETE_MODE] ∧
  RECORD ∈ committed (db run.2).
Proof.
  split; [by vm_compute|]. split; [by vm_compute|].
  vm_compute. do 5 apply list_elem_of_further. apply list_elem_of_here.
Qed.

(** C3 as amended, on [single]. *)
Lemma main_executes_only_steps_witness :
  ∃ (tr_setup : list event) (steps : list (Step journal))
    (tr_steps tr_end : list event),
    trace (main "latest" single empty).2 = tr_setup ++ tr_steps ++ tr_end ∧
    tr_setup `prefix_of` prologue_events ∧
    tr_steps `prefix_of` run_events 1 steps ∧
    tr_end `prefix_of` [Execute 0 CHECKPOINT; Execute 0 DELETE_MODE] ∧
    (∀ step, step ∈ steps →
       ∃ l name m, load_migrations single no_migrations = (Ok (), l) ∧
                   dict_get name (migrations l) = Some m ∧ step ∈ up m) ∧
    (∀ cur sql,
       Execute cur sql ∈ trace (main "latest" single empty).2 →
       (cur = 0 ∧ sql ∈ coordinator_statements) ∨
       ((1 ≤ cur)%nat ∧ SQLStep sql ∈ steps)) ∧
    (∀ name args kwargs,
       Invoke name args kwargs ∈ trace (main "latest" single empty).2 →
       ∃ f cur, PythonStep f ∈ steps ∧ (1 ≤ cur)%nat ∧ name = callable_name f ∧
                args = [] ∧ kwargs = {["cur" := PyCursor cur]}) ∧
    (∀ sql, sql ∈ coordinator_statements → names_table sql = true →
            sql = CREATE_TABLE).
Proof. exact (main_executes_only_steps "latest" single empty). Defined.

Lemma broken_fails :
  fails_before_checkpoint broken empty (DatabaseError "FAIL").
Proof.
  eapply (fails_in_step broken empty 0 _ (loaded broken) ["initial"]).
  - reflexivity.
  - apply loaded_ok. reflexivity.
  - reflexivity.
  - vm_compute. reflexivity.
Qed.

(** C6 on [broken]. *)
Lemma no_checkpoint_on_failure_witness :
  fails_before_checkpoint broken empty (DatabaseError "FAIL") ∧
  (main "latest" broken empty).1 = Raise (DatabaseError "FAIL") ∧
  (Execute 0 CHECKPOINT ∉ trace (main "latest" broken empty).2) ∧
  Execute 0 DELETE_MODE ∉ trace (main "latest" broken empty).2.
Proof.
  split; [exact broken_fails|].
  exact (proj1 (no_checkpoint_on_failure "latest" broken empty)
           (DatabaseError "FAIL") broken_fails).
Defined.

(** C8 as stated fails on [with_latest]: when [latest] is met, [a] has
    already been loaded and entered under [b] in the adjacency
    dictionary.  It fails on [bad_then_latest] too: the file before
    [latest] does not validate, and the run raises [AssertionError], not
    [ForbiddenMigrationName]. *)
Lemma latest_after_graph_construction :
  let run := load_migrations with_latest no_migrations in
  let bad := load_migrations bad_then_latest no_migrations in
  run.1 = Raise ForbiddenMigrationName ∧
  dict_keys (migrations run.2) = ["a"] ∧
  aj_get (aj run.2) "b" = ["a"] ∧
  aj run.2 ≠ ∅ ∧
  LM_LATEST_ALIAS ∈ discovered bad_then_latest ∧
  bad.1 = Raise AssertionError ∧
  (main "latest" bad_then_latest empty).1 = Raise AssertionError.
Proof.
  split; [by vm_compute|]. split; [by vm_compute|]. split; [by vm_compute|].
  split.
  { intros Hempty.
    assert (aj_get (aj (load_migrations with_latest no_migrations).2) "b" = [])
      as Hb by (by rewrite Hempty).
    by vm_compute in Hb. }
  split; [|split; by vm_compute].
  vm_compute. apply list_elem_of_further, list_elem_of_here.
Qed.

(** C8 as amended, on [with_latest]. *)
Lemma latest_is_rejected_witness :
  loading_error [file "a" (migration [SQLStep CREATE_T] ["b"])] = None ∧
  skipped (file "latest" (migration [SQLStep CREATE_U] [])) = false ∧
  m_name (file "latest" (migration [SQLStep CREATE_U] [])) = LM_LATEST_ALIAS ∧
  (load_migrations [file "a" (migration [SQLStep CREATE_T] ["b"])]
     no_migrations).1 = Ok () ∧
  load_migrations with_latest no_migrations
  = (Raise ForbiddenMigrationName,
     (load_migrations [file "a" (migration [SQLStep CREATE_T] ["b"])]
        no_migrations).2) ∧
  (main "latest" with_latest empty).1 = Raise ForbiddenMigrationName ∧
  trace (main "latest" with_latest empty).2 `prefix_of` prologue_events.
Proof.
  assert (loading_error [file "a" (migration [SQLStep CREATE_T] ["b"])] = None)
    as Hearlier by (by vm_compute).
  split; [exact Hearlier|]. split; [reflexivity|]. split; [reflexivity|].
  destruct (latest_is_rejected "latest"
              [file "a" (migration [SQLStep CREATE_T] ["b"])] []
              (file "latest" (migration [SQLStep CREATE_U] [])) empty
              Hearlier eq_refl eq_refl)
    as (Hok & Hload & _ & _ & _ & _ & _ & Hmain & Htrace).
  split; [exact Hok|]. split; [exact Hload|]. split; [|exact Htrace].
  exact (f_equal fst (Hmain 0 _ eq_refl)).
Defined.

(** C10 on a call without [cur] and on a call with the cursor [7]. *)
Lemma step_asserts_cursor_witness :
  step_call (SQLStep CREATE_T) [] ∅ (connect empty)
  = (Raise AssertionError, connect empty) ∧
  step_call (SQLStep CREATE_T) [] {["cur" := PyCursor 7]} (connect empty)
  = cursor_execute 7 CREATE_T (connect empty).
Proof.
  destruct (step_asserts_cursor (DB := journal)) as (Hnone & Hcur & _).
  split.
  - apply Hnone. reflexivity.
  - apply (Hcur CREATE_T [] {["cur" := PyCursor 7]} 7 (connect empty)).
    reflexivity.
Defined.

End Instances.

(** * Further properties of the ordering *)

Module OrderMore.
Import Order Graph OrderFacts.

Section Graph.
Variable aj : gmap string (list string).
Local Abbreviation edge := (edge aj).
Local Abbreviation topo := (topo aj).

(** A list in topological order holds every name its members reach. *)
Lemma topo_closed l x y : topo l → x ∈ l → rtc edge x y → y ∈ l.
Proof.
  intros Ht Hx Hxy. apply rtc_tc in Hxy as [<-|Hxy]; [done|].
  apply list_elem_of_split in Hx as (l1 & l2 & ->).
  pose proof (topo_after aj l1 x l2 y Ht Hxy). set_solver.
Qed.

(** Where a traversal raises, a cycle lies within reach of the name it
    started from. *)
Lemma for_each_raise_reachable depth ns :
  (∀ n st e, _visit depth aj n st = Some (Raise e) →
             (∀ c, c ∈ cycle_check_set st → tc edge c n) →
             ∃ c, rtc edge n c ∧ tc edge c c) →
  ∀ st e, for_each (_visit depth aj) ns st = Some (Raise e) →
          (∀ n c, n ∈ ns → c ∈ cycle_check_set st → tc edge c n) →
          ∃ n c, n ∈ ns ∧ rtc edge n c ∧ tc edge c c.
Proof.
  intros Hbody. induction ns as [|n ns IH]; intros st e Hrun Hpath; simpl in Hrun;
    [done|].
  destruct (_visit depth aj n st) as [[s'|e']|] eqn:Hn; [| |done].
  - apply visit_spec in Hn as (Hc & _).
    destruct (IH s' e Hrun) as (m & c & Hm & Hmc & Hcc).
    + intros m c Hm Hcin. apply Hpath; [set_solver|congruence].
    + exists m, c. set_solver.
  - injection Hrun as <-.
    destruct (Hbody n st e' Hn) as (c & Hnc & Hcc).
    + intros c Hc. apply Hpath; [set_solver|done].
    + exists n, c. set_solver.
Qed.

Lemma visit_raise_reachable depth n st e :
  _visit depth aj n st = Some (Raise e) →
  (∀ c, c ∈ cycle_check_set st → tc edge c n) →
  ∃ c, rtc edge n c ∧ tc edge c c.
Proof.
  revert n st e. induction depth as [|depth IH]; intros n st e; [done|].
  simpl. destruct (decide (n ∈ nodes_seen st)); [done|].
  destruct (decide (n ∈ cycle_check_set st)) as [Hcc|Hcc].
  { intros _ Hpath. exists n. split; [done|]. by apply Hpath. }
  set (st1 := {| nodes_seen := nodes_seen st;
                 cycle_check_set := {[n]} ∪ cycle_check_set st;
                 node_ordering := node_ordering st |}).
  destruct (for_each (_visit depth aj) (aj_get aj n) st1) as [[st2|e']|] eqn:Hloop;
    [| |done].
  - apply visit_all_spec in Hloop as (Hc & _). simpl in Hc.
    destruct (decide (n ∈ cycle_check_set st2)); [done|set_solver].
  - intros [= <-] Hpath.
    destruct (for_each_raise_reachable depth (aj_get aj n) IH st1 e' Hloop)
      as (m & c & Hm & Hmc & Hcc').
    + intros m c Hm. simpl. intros [->%elem_of_singleton|Hc]%elem_of_union.
      * by apply tc_once.
      * eapply tc_r; [|exact Hm]. by apply Hpath.
    + exists c. split; [|done]. by eapply rtc_l.
Qed.

Lemma check_raise_reachable keys e :
  _check_for_cycles_and_order keys aj = Some (Raise e) →
  ∃ k c, k ∈ keys ∧ rtc edge k c ∧ tc edge c c.
Proof.
  unfold _check_for_cycles_and_order, _check_for_cycles_and_order_at.
  destruct (for_each _ _ _) as [[st|e']|] eqn:Hrun; [done| |done]. intros _.
  destruct (for_each_raise_reachable _ (reverse keys)
              (visit_raise_reachable _) _ _ Hrun) as (k & c & Hk & Hkc & Hcc).
  - simpl. set_solver.
  - rewrite elem_of_reverse in Hk. eauto.
Qed.

(** Keys without dependents, visited from a state that has met none of
    them, are prepended one by one. *)
Lemma for_each_leaves depth ns st :
  NoDup ns →
  (∀ n, n ∈ ns → aj_get aj n = [] ∧ (n ∉ nodes_seen st) ∧ n ∉ cycle_check_set st) →
  ∃ st', for_each (_visit (S depth) aj) ns st = Some (Ok st') ∧
         node_ordering st' = reverse ns ++ node_ordering st ∧
         nodes_seen st' = list_to_set ns ∪ nodes_seen st ∧
         cycle_check_set st' = cycle_check_set st.
Proof.
  revert st. induction ns as [|n ns IH]; intros st Hnd Hns.
  - exists st. simpl. split; [done|]. split; [done|]. split; [set_solver|done].
  - apply NoDup_cons in Hnd as [Hn Hnd].
    destruct (Hns n) as (Hleaf & Hseen & Hcc); [set_solver|].
    cbn [for_each]. cbn [_visit].
    rewrite decide_False, decide_False, Hleaf by done. cbn [for_each].
    rewrite decide_True by set_solver.
    set (st1 := {| nodes_seen := _; cycle_check_set := _; node_ordering := _ |}).
    destruct (IH st1 Hnd) as (st' & Hrun & Ho & Hs & Hc).
    { intros m Hm. destruct (Hns m) as (? & ? & ?); [set_solver|].
      split; [done|]. simpl. split; [|set_solver].
      intros [->%elem_of_singleton|?]%elem_of_union; done. }
    exists st'. split; [done|]. rewrite Ho, Hs, Hc. simpl.
    rewrite reverse_cons, <-(assoc_L (++)). split; [done|].
    split; [set_solver|]. set_solver.
Qed.

End Graph.

(** ** What the function returns and when it raises *)

(** X1.  The ordering function always comes to an end, within the nesting
    it is given, and in one of two ways: it returns an order or it raises
    [DependencyCycle].  In particular [cycle_check_set.remove(n)] never
    raises [KeyError]. *)
Theorem ordering_returns_or_finds_cycle (keys : list string)
    (aj : gmap string (list string)) :
  (∃ order, _check_for_cycles_and_order keys aj = Some (Ok order)) ∨
  _check_for_cycles_and_order keys aj = Some (Raise DependencyCycle).
Proof.
  destruct (check_total aj keys) as [[order|e] Hrun]; [eauto|].
  right. by destruct (check_raise aj keys e Hrun) as [-> _].
Qed.

(** X2.  [DependencyCycle] is raised exactly when some key reaches a
    cycle of the adjacency dictionary: never without a cycle, and never
    missed when a key leads to one. *)
Theorem cycle_error_iff_reachable_cycle (keys : list string)
    (aj : gmap string (list string)) :
  _check_for_cycles_and_order keys aj = Some (Raise DependencyCycle) ↔
  ∃ k c, k ∈ keys ∧ rtc (edge aj) k c ∧ tc (edge aj) c c.
Proof.
  split; [apply check_raise_reachable|].
  intros (k & c & Hk & Hkc & Hcc).
  destruct (check_total aj keys) as [[order|e] Hrun];
    [|by destruct (check_raise aj keys e Hrun) as [-> _]].
  destruct (check_ok aj keys order Hrun) as (Hnd & Ht & Hall & _).
  destruct (topo_no_cycle aj order c Hnd Ht); [|done].
  eapply topo_closed; eauto.
Qed.

(** X3.  Keys under which the adjacency dictionary lists nothing come out
    in the insertion order of the migration dictionary. *)
Theorem independent_keys_keep_insertion_order (keys : list string)
    (aj : gmap string (list string)) :
  NoDup keys → (∀ k, k ∈ keys → aj_get aj k = []) →
  _check_for_cycles_and_order keys aj = Some (Ok keys).
Proof.
  intros Hnd Hleaf.
  unfold _check_for_cycles_and_order, _check_for_cycles_and_order_at.
  destruct (for_each_leaves aj (size (graph_nodes keys aj)) (reverse keys)
              initial_state) as (st' & -> & Ho & _).
  - by rewrite reverse_Permutation.
  - intros n Hn. rewrite elem_of_reverse in Hn. simpl. set_solver.
  - rewrite Ho. simpl. by rewrite app_nil_r, reverse_involutive.
Qed.

(** X4.  The order returned holds exactly the names that can be reached
    from a key along the adjacency lists: the keys themselves and, should
    the lists name any, names that are no key. *)
Theorem order_is_reachable_set (keys : list string)
    (aj : gmap string (list string)) (order : list string) :
  _check_for_cycles_and_order keys aj = Some (Ok order) →
  ∀ x, x ∈ order ↔ ∃ k, k ∈ keys ∧ rtc (edge aj) k x.
Proof.
  intros (Hnd & Ht & Hall & Hreach)%check_ok x. split; [apply Hreach|].
  intros (k & Hk & Hkx). eapply topo_closed; eauto.
Qed.

(** X5.  A call of [_visit] that returns has left [cycle_check_set] as it
    found it, has only prepended to [node_ordering], the names prepended
    being those added to [nodes_seen], and has [n] in [nodes_seen]. *)
Theorem visit_restores_cycle_check_set (depth : nat)
    (aj : gmap string (list string)) (n : string) (st st' : visit_state) :
  _visit depth aj n st = Some (Ok st') →
  cycle_check_set st' = cycle_check_set st ∧
  n ∈ nodes_seen st' ∧
  ∃ pre, node_ordering st' = pre ++ node_ordering st ∧
         nodes_seen st' = list_to_set pre ∪ nodes_seen st.
Proof.
  intros (Hc & Hs & _ & pre & Ho & Hn & _)%visit_spec.
  split; [done|]. split; [apply Hs; set_solver|]. by exists pre.
Qed.

End OrderMore.

(** * Further properties of loading *)

Module LoadMore.
Import Graph LoadFacts.

Section Load.
Context {DB : Type}.
Implicit Types (e : DirEntry DB) (l : Loaded DB) (listing : list (DirEntry DB)).

Lemma discovered_cons e listing :
  discovered (e :: listing)
  = if skipped e then discovered listing else m_name e :: discovered listing.
Proof. unfold discovered. simpl. by destruct (skipped e). Qed.

Lemma load_migrations_lookup listing l0 l :
  load_migrations listing l0 = (Ok (), l) →
  NoDup (dict_keys (migrations l0) ++ discovered listing) →
  dict_keys (migrations l) = dict_keys (migrations l0) ++ discovered listing ∧
  (∀ k, k ∉ discovered listing →
        dict_get k (migrations l) = dict_get k (migrations l0)) ∧
  (∀ e, e ∈ listing → skipped e = false →
        dict_get (m_name e) (migrations l) = Some (m_mod e)).
Proof.
  unfold load_migrations. revert l0.
  induction listing as [|e listing IH]; intros l0; simpl.
  - intros [= <-] _. rewrite app_nil_r. split; [done|]. split; [done|].
    by intros e ?%elem_of_nil.
  - unfold bind. rewrite discovered_cons.
    destruct (load_entry_cases e l0)
      as [[Hs H]|[(Hs & Hn & H)|[(Hs & Hne & H)|(Hs & Hne & ? & ? & ? & H & _)]]];
      rewrite H, Hs; [| done | | done].
    + intros Hrun Hnd. destruct (IH _ Hrun Hnd) as (Hkeys & Hold & Hnew).
      split; [done|]. split; [done|].
      intros e' [->|?]%elem_of_cons ?; [congruence|auto].
    + intros Hrun Hnd.
      assert (m_name e ∉ dict_keys (migrations l0)) as Hfresh.
      { apply NoDup_app in Hnd as (_ & Hdisj & _). intros Hin.
        apply (Hdisj _ Hin). set_solver. }
      assert (m_name e ∉ discovered listing) as Hlater.
      { apply NoDup_app in Hnd as (_ & _ & [? _]%NoDup_cons). done. }
      destruct (IH _ Hrun) as (Hkeys & Hold & Hnew).
      { simpl. rewrite dict_set_fresh by done. unfold dict_keys.
        rewrite fmap_app. simpl. by rewrite <-(assoc_L (++)). }
      simpl in *. rewrite dict_set_fresh in Hkeys by done.
      unfold dict_keys in Hkeys. rewrite fmap_app, <-(assoc_L (++)) in Hkeys.
      split; [done|]. split.
      * intros k Hk. rewrite Hold by set_solver.
        apply dict_get_set_ne. set_solver.
      * intros e' [->|?]%elem_of_cons ?; [|auto].
        rewrite Hold by done. apply dict_get_set.
Qed.

Lemma load_migrations_roots listing l0 l n :
  load_migrations listing l0 = (Ok (), l) →
  n ∈ roots l ↔
  n ∈ roots l0 ∨
  ∃ e, e ∈ listing ∧ skipped e = false ∧ m_name e = n ∧ depends_on (m_mod e) = [].
Proof.
  unfold load_migrations. revert l0.
  induction listing as [|e listing IH]; intros l0; simpl.
  - intros [= <-]. set_solver.
  - unfold bind.
    destruct (load_entry_cases e l0)
      as [[Hs H]|[(Hs & Hn & H)|[(Hs & Hne & H)|(Hs & Hne & ? & ? & ? & H & _)]]];
      rewrite H; [| done | | done].
    + intros Hrun. rewrite (IH _ Hrun). split; [set_solver|].
      intros [?|(e' & [->|?]%elem_of_cons & ? & ? & ?)]; [auto|congruence|].
      right. exists e'. set_solver.
    + intros Hrun. rewrite (IH _ Hrun). cbn [roots]. split.
      * intros [Hn|(e' & ? & ? & ? & ?)].
        -- destruct (depends_on (m_mod e)) eqn:Hdeps; [|auto].
           apply elem_of_app in Hn as [?|Hn%list_elem_of_singleton]; [auto|].
           right. exists e. set_solver.
        -- right. exists e'. set_solver.
      * intros [?|(e' & [->|?]%elem_of_cons & ? & <- & Hdeps)].
        -- left. destruct (depends_on (m_mod e)); set_solver.
        -- left. rewrite depends_on_m_mod, Hdeps. set_solver.
        -- right. exists e'. set_solver.
Qed.

(** X6.  Loading raises what the first file to fail raises and returns
    when none fails.  A migration file fails when it is named [latest]
    ([ForbiddenMigrationName]), when its import raises, when its module
    does not pass [_validate_migration] ([AssertionError], or [TypeError]
    for steps that cannot be iterated) or when one of its dependencies
    cannot be a key of [aj] ([TypeError]). *)
Theorem loading_raises_first_error listing l0 :
  (load_migrations listing l0).1
  = match loading_error listing with None => Ok () | Some err => Raise err end ∧
  (loading_error listing = None ↔
   ∀ e, e ∈ listing → skipped e = false →
        m_name e ≠ LM_LATEST_ALIAS ∧ m_import e = None ∧
        Validate._validate_migration (m_attrs e) = Validate.Passes ∧
        forallb hashable (declared (m_attrs e)) = true) ∧
  (∀ err, loading_error listing = Some err →
          ∃ earlier e later,
            listing = earlier ++ e :: later ∧
            loading_error earlier = None ∧ skipped e = false ∧
            if String.eqb (m_name e) LM_LATEST_ALIAS
            then err = ForbiddenMigrationName
            else load_error e = Some err).
Proof.
  split; [apply load_migrations_outcome|]. split.
  - rewrite loading_error_None, Forall_forall.
    apply forall_proper. intros e. unfold entry_error, load_error.
    destruct (skipped e); [naive_solver|].
    destruct (String.eqb_spec (m_name e) LM_LATEST_ALIAS); [naive_solver|].
    destruct (m_import e); [naive_solver|].
    destruct (Validate._validate_migration (m_attrs e)) as [|[]];
      [|naive_solver..].
    destruct (forallb hashable (declared (m_attrs e))); naive_solver.
  - induction listing as [|e listing IH]; intros err; [done|].
    change (e :: listing) with ([e] ++ listing). rewrite loading_error_app.
    unfold loading_error at 1. simpl.
    destruct (entry_error e) as [err'|] eqn:He; simpl.
    + intros [= ->]. exists [], e, listing. split; [done|]. split; [done|].
      revert He. unfold entry_error. destruct (skipped e); [done|].
      split; [done|].
      by destruct (String.eqb (m_name e) LM_LATEST_ALIAS); [injection He as <-|].
    + intros (earlier & e' & later & -> & Hearlier & Hrest)%IH.
      exists (e :: earlier), e', later. split; [done|]. split; [|done].
      change (e :: earlier) with ([e] ++ earlier). rewrite loading_error_app.
      unfold loading_error at 1. simpl. by rewrite He.
Qed.

(** X7.  Loading stops at the first file that fails: the files after it
    are never looked at, so the outcome and the locals are those of the
    folder cut off after that file.  A file named [latest] leaves the
    locals as the files before it left them; any other failing file is
    in the migration dictionary already, entered there before its
    import. *)
Theorem loading_stops_at_first_error (earlier later : list (DirEntry DB))
    e err l0 :
  loading_error earlier = None → entry_error e = Some err →
  (load_migrations (earlier ++ e :: later) l0).1 = Raise err ∧
  load_migrations (earlier ++ e :: later) l0
  = load_migrations (earlier ++ [e]) l0 ∧
  (m_name e = LM_LATEST_ALIAS →
   (load_migrations (earlier ++ e :: later) l0).2
   = (load_migrations earlier l0).2) ∧
  (m_name e ≠ LM_LATEST_ALIAS →
   m_name e ∈ dict_keys (migrations (load_migrations (earlier ++ e :: later) l0).2)).
Proof.
  intros Hearlier He.
  destruct (load_migrations_stops earlier later e err l0 Hearlier He) as [_ Hl].
  destruct (load_migrations_stops earlier [] e err l0 Hearlier He) as [_ Hl'].
  rewrite Hl, Hl'. split; [done|]. split; [done|]. simpl.
  assert (skipped e = false) as Hs.
  { revert He. unfold entry_error. by destruct (skipped e). }
  destruct (load_entry_cases e (load_migrations earlier l0).2)
    as [[? _]|[(_ & Hn & H)|[(_ & Hne & H)|(_ & Hne & ? & ? & ? & H & _)]]];
    [congruence|rewrite H; simpl..].
  - by split.
  - split; [done|]. intros _. apply dict_keys_set. by left.
  - split; [done|]. intros _. apply dict_keys_set. by left.
Qed.

(** X8.  Names that are not migration files (another extension, a leading
    dot or a leading double underscore) change nothing: loading a folder
    is loading its migration files. *)
Theorem skipped_files_are_ignored listing l0 :
  load_migrations listing l0
  = load_migrations (List.filter (λ e, negb (skipped e)) listing) l0.
Proof.
  unfold load_migrations. revert l0.
  induction listing as [|e listing IH]; intros l0; simpl; [done|].
  destruct (skipped e) eqn:Hs; simpl; unfold bind.
  - destruct (load_entry_cases e l0) as [[_ ->]|[(? & _)|[(? & _)|(? & _)]]];
      [apply IH|congruence..].
  - destruct (load_entry e l0) as [[[]|e'] l1]; [apply IH|done].
Qed.

(** X9.  Loading a folder whose migration files have distinct names fills
    the dictionary in the order of the listing, and each name then looks
    up the module of its file. *)
Theorem loaded_modules_lookup listing l :
  NoDup (discovered listing) →
  load_migrations listing no_migrations = (Ok (), l) →
  dict_keys (migrations l) = discovered listing ∧
  ∀ e, e ∈ listing → skipped e = false →
       dict_get (m_name e) (migrations l) = Some (m_mod e).
Proof.
  intros Hnd Hload.
  destruct (load_migrations_lookup listing no_migrations l Hload)
    as (Hkeys & _ & Hget); [done|]. by split.
Qed.

(** X10.  The adjacency dictionary holds the declared dependencies and
    nothing else: [m] is listed under [d] exactly when a loaded file named
    [m] has [d] in its [depends_on]. *)
Theorem adjacency_records_dependencies listing l d m :
  load_migrations listing no_migrations = (Ok (), l) →
  edge (aj l) d m ↔
  ∃ e, e ∈ listing ∧ skipped e = false ∧ m_name e = m ∧ d ∈ depends_on (m_mod e).
Proof.
  intros Hload. rewrite (load_migrations_edges _ _ _ _ _ Hload). simpl.
  split; [|auto]. intros [[]%edge_empty|?]. done.
Qed.

(** X11.  The roots are exactly the loaded files that declare no
    dependency. *)
Theorem roots_declare_no_dependency listing l n :
  load_migrations listing no_migrations = (Ok (), l) →
  n ∈ roots l ↔
  ∃ e, e ∈ listing ∧ skipped e = false ∧ m_name e = n ∧ depends_on (m_mod e) = [].
Proof.
  intros Hload. rewrite (load_migrations_roots _ _ _ _ Hload). simpl.
  split; [|auto]. intros [[]%elem_of_nil|?]. done.
Qed.

End Load.
End LoadMore.

(** * Further properties of execution and of the coordinator *)

Module EngineMore.
Import Graph OrderFacts LoadFacts LoadMore EngineFacts MainFacts.

Section Engine.
Context {DB : Type} `{!Sqlite DB}.
Implicit Types (c : Conn DB) (listing : list (DirEntry DB)) (l : Loaded DB).

(** ** Composition and the missing key *)

(** X12.  Executing one sequence after another is executing their
    concatenation; when the first raises, the second is not begun. *)
Theorem execution_composes (migrations : list (string * Migration DB))
    (order1 order2 : list string) c :
  _execute_migrations migrations (order1 ++ order2) c
  = match _execute_migrations migrations order1 c with
    | (Ok _, c1) => _execute_migrations migrations order2 c1
    | (Raise e, c1) => (Raise e, c1)
    end.
Proof. apply mfor_app. Qed.

(** X13.  A name of the sequence that the dictionary does not hold raises
    [KeyError] with that name, after the migrations before it have been
    applied and committed; those after it are not touched. *)
Theorem missing_migration_raises_key_error
    (migrations : list (string * Migration DB))
    (order1 order2 : list string) (name : string) c c1 :
  dict_get name migrations = None →
  _execute_migrations migrations order1 c = (Ok (), c1) →
  _execute_migrations migrations (order1 ++ name :: order2) c
  = (Raise (KeyError name), c1).
Proof.
  intros Hname Hrun. unfold _execute_migrations in *. rewrite mfor_app, Hrun.
  simpl. unfold bind, execute_migration.
  by rewrite Hname.
Qed.

(** ** What can be raised *)

Section Raises.
Variable P : exn → Prop.
Hypothesis Hdriver : driver_raises P.

Lemma driver_raises_P op c e c' :
  (∀ d err, (op d).2 = Some err → P err) →
  driver op c = (Raise e, c') → P e.
Proof.
  intros Hop. unfold driver. destruct (op (db c)) as [d [err|]] eqn:Hd;
    intros [= <- <-]. apply (Hop (db c)). by rewrite Hd.
Qed.

Lemma cursor_execute_raises cur sql c e c' :
  cursor_execute cur sql c = (Raise e, c') → P e.
Proof.
  unfold cursor_execute, bind, emit. destruct (driver _ _) as [[[]|e'] c1] eqn:Hd;
    intros [= <- <-].
  eapply driver_raises_P; [|exact Hd]. intros d err. apply Hdriver.
Qed.

Lemma conn_commit_raises c e c' : conn_commit c = (Raise e, c') → P e.
Proof.
  unfold conn_commit, bind, emit. destruct (driver _ _) as [[[]|e'] c1] eqn:Hd;
    intros [= <- <-].
  eapply driver_raises_P; [|exact Hd]. intros d err. apply Hdriver.
Qed.

Lemma execute_step_raises (step : Step DB) c e c' :
  (∀ f args kwargs d err,
      step = PythonStep f → (callable_run f args kwargs d).2 = Some err → P err) →
  execute_step step c = (Raise e, c') → P e.
Proof.
  intros Hcall. unfold execute_step, bind, conn_cursor.
  destruct (step_call _ _ _ _) as [[[]|e1] c1] eqn:Hstep.
  - apply conn_commit_raises.
  - intros [= <- <-]. destruct step as [sql|f]; simpl in Hstep.
    + unfold SQLStep_call, kwargs_get in Hstep.
      rewrite lookup_singleton_eq in Hstep. simpl in Hstep.
      by eapply cursor_execute_raises.
    + unfold PythonStep_call, kwargs_get in Hstep.
      rewrite lookup_singleton_eq in Hstep. simpl in Hstep.
      unfold bind, emit in Hstep.
      destruct (driver _ _) as [[[]|e'] c2] eqn:Hd; [done|].
      injection Hstep as <- <-.
      eapply driver_raises_P; [|exact Hd]. intros d err. by apply Hcall.
Qed.

Lemma execute_migrations_raises (migrations : list (string * Migration DB))
    order c e c' :
  (∀ name m f args kwargs d err,
      dict_get name migrations = Some m → PythonStep f ∈ up m →
      (callable_run f args kwargs d).2 = Some err → P err) →
  _execute_migrations migrations order c = (Raise e, c') →
  (∃ name, name ∈ order ∧ dict_get name migrations = None ∧ e = KeyError name) ∨
  P e.
Proof.
  intros Hcall. unfold _execute_migrations. revert c.
  induction order as [|name order IH]; intros c; simpl; [done|].
  unfold bind, execute_migration at 1.
  destruct (dict_get name migrations) as [m|] eqn:Hm.
  - destruct (mfor execute_step (up m) c) as [[[]|e1] c1] eqn:Hrun.
    + intros [(n & ? & ? & ?)|?]%IH; [left; exists n; set_solver|by right].
    + intros [= <- <-]. right.
      assert (∀ step, step ∈ up m → ∀ f args kwargs d err, step = PythonStep f →
                (callable_run f args kwargs d).2 = Some err → P err) as Hsteps.
      { intros step Hin f args kwargs d err -> Herr. by eapply Hcall. }
      clear Hm. revert c Hrun Hsteps. generalize (up m) as steps.
      induction steps as [|step steps IHs]; intros c; simpl; [done|].
      unfold bind. destruct (execute_step step c) as [[[]|e2] c2] eqn:Hstep.
      * intros Hrun Hsteps. eapply IHs; [exact Hrun|].
        intros ??; apply Hsteps; set_solver.
      * intros [= <- <-] Hsteps. eapply execute_step_raises; [|exact Hstep].
        apply Hsteps. set_solver.
  - intros [= <- <-]. left. exists name. set_solver.
Qed.

Lemma prologue_raises c e c' : prologue c = (Raise e, c') → P e.
Proof.
  unfold prologue, bind, conn_cursor.
  repeat match goal with
  | |- context [cursor_execute ?cur ?sql ?c0] =>
      let H := fresh "H" in
      destruct (cursor_execute cur sql c0) as [[[]|?] ?] eqn:H;
      [|intros [= <- <-]; by eapply cursor_execute_raises]
  end.
  done.
Qed.

End Raises.

(** The modules of the dictionary are modules of files of the folder. *)
Lemma load_migrations_modules listing l0 l name m :
  load_migrations listing l0 = (Ok (), l) →
  dict_get name (migrations l) = Some m →
  dict_get name (migrations l0) = Some m ∨
  ∃ e, e ∈ listing ∧ skipped e = false ∧ m_mod e = m.
Proof.
  unfold load_migrations. revert l0.
  induction listing as [|e listing IH]; intros l0; simpl.
  - intros [= <-]. auto.
  - unfold bind.
    destruct (load_entry_cases e l0)
      as [[Hs H]|[(Hs & Hn & H)|[(Hs & Hne & H)|(Hs & Hne & ? & ? & ? & H & _)]]];
      rewrite H; [| done | | done].
    + intros Hrun Hm. destruct (IH _ Hrun Hm) as [?|(e' & ? & ? & ?)]; [auto|].
      right. exists e'. set_solver.
    + intros Hrun Hm. destruct (IH _ Hrun Hm) as [Hold|(e' & ? & ? & ?)].
      * simpl in Hold. destruct (decide (name = m_name e)) as [->|Hne'].
        -- rewrite dict_get_set in Hold. right. exists e. set_solver.
        -- rewrite dict_get_set_ne in Hold by done. auto.
      * right. exists e'. set_solver.
Qed.


(** X15.  A run of [main] that returns has applied every up-step of every
    loaded migration, each migration once and after all the loaded
    migrations it depends on, each step followed by its commit, and has
    then executed the checkpoint and the return to the default journal
    mode: its trace is the setup, the events of the plan and those two
    statements. *)
Theorem main_success_applies_all_in_dependency_order
    (target_migration : string) listing (d : DB) :
  (main target_migration listing d).1 = Ok () →
  ∃ l order,
    load_migrations listing no_migrations = (Ok (), l) ∧
    Order._check_for_cycles_and_order (dict_keys (migrations l)) (aj l)
    = Some (Ok order) ∧
    order ≡ₚ dict_keys (migrations l) ∧
    (∀ dep m, dep ∈ dict_keys (migrations l) → tc (edge (aj l)) dep m →
              before dep m order) ∧
    trace (main target_migration listing d).2
    = prologue_events ++ run_events 1 (plan (migrations l) order)
      ++ [Execute 0 CHECKPOINT; Execute 0 DELETE_MODE].
Proof.
  pose proof (main_run target_migration listing d) as Hstages.
  destruct (main target_migration listing d) as [r c']. simpl in *.
  intros ->.
  inversion Hstages as [| | | |cur c1 l order c3 r' c4 Hpro Hl Ho Hexe Hepi]; subst.
  apply (prologue_run d _ _) in Hpro as (-> & Hk & Hp).
  apply order_migrations_run in Ho as [_ Ho].
  apply execute_migrations_run in Hexe as (tr & Htr & Hran & _).
  simpl in Hran. subst tr. rewrite Hp, Hk in Htr.
  pose proof (load_migrations_inv _ _ _ Hl) as [Hnd _ Hedges _].
  exists l, order. split; [done|]. split; [done|].
  split; [by eapply check_permutation|]. split.
  - destruct (check_ok _ _ _ Ho) as (_ & Ht & Hall & _).
    intros dep m Hdep Hdm. apply (topo_before (aj l)); auto.
  - revert Hepi. unfold bind.
    destruct (cursor_execute_run 0 CHECKPOINT c3) as (r1 & d1 & ->).
    destruct r1 as [[]|e]; [|done].
    destruct (cursor_execute_run 0 DELETE_MODE
                (MkConn d1 (cursors c3) (trace c3 ++ [Execute 0 CHECKPOINT])))
      as (r2 & d2 & ->).
    intros [= _ <-]. simpl. rewrite Htr, <-!(assoc_L (++)). done.
Qed.

(** ** The down steps *)

Lemma bind_ext {S A B : Type} (m : M S A) (k k' : A → M S B) s :
  (∀ a s', k a s' = k' a s') → bind m k s = bind m k' s.
Proof. intros Hk. unfold bind. destruct (m s) as [[a|e] s']; [apply Hk|done]. Qed.

Lemma bind_cong {S A B : Type} (m m' : M S A) (k : A → M S B) s :
  m s = m' s → bind m k s = bind m' k s.
Proof. intros Hm. unfold bind. by rewrite Hm. Qed.

Lemma same_up_refl (m : Migration DB) : same_up m m.
Proof. done. Qed.

Lemma execute_same_up (ms ms' : list (string * Migration DB)) order c :
  (∀ name, match dict_get name ms, dict_get name ms' with
           | Some m, Some m' => same_up m m'
           | None, None => True
           | _, _ => False
           end) →
  _execute_migrations ms order c = _execute_migrations ms' order c.
Proof.
  intros Hsame. unfold _execute_migrations. revert c.
  induction order as [|name order IH]; intros c; simpl; [done|].
  unfold bind, execute_migration at 1 3. specialize (Hsame name).
  destruct (dict_get name ms) as [m|], (dict_get name ms') as [m'|]; try done.
  destruct Hsame as [-> _].
  destruct (mfor execute_step (up m') c) as [[[]|e] c1]; [apply IH|done].
Qed.

Lemma dict_get_set_same (ms ms' : list (string * Migration DB)) k (m m' : Migration DB) :
  same_up m m' →
  (∀ name, match dict_get name ms, dict_get name ms' with
           | Some m, Some m' => same_up m m'
           | None, None => True
           | _, _ => False
           end) →
  ∀ name, match dict_get name (dict_set k m ms), dict_get name (dict_set k m' ms') with
          | Some m, Some m' => same_up m m'
          | None, None => True
          | _, _ => False
          end.
Proof.
  intros Hm Hsame name. destruct (decide (name = k)) as [->|Hne].
  - by rewrite !dict_get_set.
  - rewrite !dict_get_set_ne by done. apply Hsame.
Qed.

Lemma dict_keys_set_same (ms ms' : list (string * Migration DB)) k (m m' : Migration DB) :
  dict_keys ms = dict_keys ms' →
  dict_keys (dict_set k m ms) = dict_keys (dict_set k m' ms').
Proof.
  unfold dict_keys. revert ms'.
  induction ms as [|[k1 m1] ms IH]; intros [|[k2 m2] ms']; simpl; try done.
  intros [= -> Hkeys]. destruct (decide (k = k2)); simpl; [by rewrite Hkeys|].
  f_equal. by apply IH.
Qed.

(** What the loop reads of two such files is the same. *)
Lemma same_file_read (e e' : DirEntry DB) :
  same_file e e' →
  skipped e = skipped e' ∧
  Validate._validate_migration (m_attrs e)
  = Validate._validate_migration (m_attrs e') ∧
  declared (m_attrs e) = declared (m_attrs e') ∧
  same_up (m_mod e) (m_mod e') ∧
  entry_error e = entry_error e'.
Proof.
  intros (Hname & Hext & Himport & Hup & Hdeps & Hdown).
  assert (skipped e = skipped e') as Hskip
    by (unfold skipped; by rewrite Hname, Hext).
  assert (Validate._validate_migration (m_attrs e)
          = Validate._validate_migration (m_attrs e')) as Hval.
  { unfold Validate._validate_migration. rewrite Hup, Hdeps.
    destruct (m_attrs e' !! "up") as [up_|]; [|done].
    destruct (m_attrs e !! "down") as [down_|],
             (m_attrs e' !! "down") as [down_'|]; simplify_eq/=; [|done].
    by rewrite Hdown. }
  assert (declared (m_attrs e) = declared (m_attrs e')) as Hdecl.
  { unfold declared, Validate.get_depends_on. by rewrite Hdeps. }
  split; [done|]. split; [done|]. split; [done|]. split.
  - unfold same_up, m_mod, read_module. simpl. by rewrite Hup, Hdecl.
  - unfold entry_error, load_error.
    by rewrite Hskip, Hname, Himport, Hval, Hdecl.
Qed.

Lemma load_same_files listing listing' l0 l0' :
  Forall2 same_file listing listing' → same_loaded l0 l0' →
  (load_migrations listing l0).1 = (load_migrations listing' l0').1 ∧
  ((load_migrations listing l0).1 = Ok () →
   same_loaded (load_migrations listing l0).2 (load_migrations listing' l0').2).
Proof.
  intros Hfiles. revert l0 l0'.
  induction Hfiles as [|e e' listing listing' Hsame _ IH];
    intros l0 l0' (Hkeys & Hget & Haj & Hroots); [done|].
  destruct (same_file_read e e' Hsame) as (Hskip & _ & Hdecl & Hup & Herr).
  destruct Hsame as (Hname & _).
  unfold load_migrations in *. simpl. unfold bind.
  pose proof (load_entry_outcome e l0) as Ho.
  pose proof (load_entry_outcome e' l0') as Ho'. rewrite <-Herr in Ho'.
  destruct (load_entry_cases e l0)
    as [[Hs H]|[(Hs & Hn & H)|[(Hs & Hne & H)|(Hs & Hne & ? & ? & ? & H & _)]]];
    destruct (load_entry_cases e' l0')
      as [[Hs' H']|[(Hs' & Hn' & H')|[(Hs' & Hne' & H')
                                     |(Hs' & Hne' & ? & ? & ? & H' & _)]]];
    rewrite H in *; rewrite H' in *; simpl in Ho, Ho'; try congruence.
  - by apply IH.
  - done.
  - apply IH. rewrite <-Hname, !depends_on_m_mod, <-Hdecl.
    split; [|split; [|split]]; simpl.
    + by apply dict_keys_set_same.
    + by apply dict_get_set_same.
    + by rewrite Haj.
    + by rewrite Hroots.
  - simpl. split; [congruence|done].
Qed.

(** X16.  [main] reads the [down] steps only to validate them: two
    folders whose files differ at most in their [down] attributes, these
    faring alike in the validation, give the same run, with the same
    outcome, the same trace and the same database. *)
Theorem down_steps_are_only_validated (target_migration : string)
    listing listing' (d : DB) :
  Forall2 same_file listing listing' →
  main target_migration listing d = main target_migration listing' d.
Proof.
  intros Hfiles. unfold main, main_on. apply bind_ext. intros cur c1.
  destruct (load_same_files listing listing' no_migrations no_migrations Hfiles)
    as (Hr & Hl); [done|].
  destruct (load_migrations listing no_migrations) as [r l],
           (load_migrations listing' no_migrations) as [r' l'].
  simpl in *. subst r'. destruct r as [[]|e]; [|done].
  destruct (Hl eq_refl) as (Hkeys & Hget & Haj & Hroots).
  assert (order_migrations l = order_migrations l') as ->.
  { unfold order_migrations. by rewrite Hkeys, Haj. }
  apply bind_ext. intros order c2. apply bind_cong.
  by apply execute_same_up.
Qed.

End Engine.
End EngineMore.

(** * Properties of validation *)

Module ValidateFacts.
Import Validate.

Section Validate.
Context {DB : Type}.
Implicit Types (o : pyobj DB) (migration : gmap string (pyobj DB)).

Lemma forallb_is_step (xs : list (pyobj DB)) :
  forallb is_step xs = true ↔ is_Some (mapM as_step xs).
Proof.
  rewrite mapM_is_Some, forallb_forall, Forall_forall.
  split; intros Hxs x Hx.
  - apply list_elem_of_In, Hxs in Hx. destruct x; try done. by eexists.
  - apply list_elem_of_In, Hxs in Hx. destruct x; try done; by destruct Hx.
Qed.

Lemma assert_steps_passes o : assert_steps o = Passes ↔ is_Some (as_steps o).
Proof.
  unfold assert_steps, as_steps. destruct (elements o) as [xs|]; simpl.
  - rewrite <-forallb_is_step. by destruct (forallb is_step xs).
  - split; [done|by intros [? ?]].
Qed.

(** X17.  Validation does not look into [depends_on]: whatever a list,
    tuple, set or frozenset of dependencies holds, names or not, the module
    is judged as if it declared none. *)
Theorem validation_ignores_dependencies migration (deps : pyobj DB) :
  is_collection deps = true →
  _validate_migration (<["depends_on" := deps]> migration)
  = _validate_migration (delete "depends_on" migration).
Proof.
  intros Hdeps. unfold _validate_migration.
  rewrite !lookup_insert_ne, !lookup_delete_ne by done.
  rewrite lookup_insert_eq, lookup_delete_eq. simpl. by rewrite Hdeps.
Qed.

(** X18.  A module that passes validation and whose dependencies are
    strings is a [Migration]: its [up] and [down] are sequences of steps
    and its dependencies a sequence of names. *)
Theorem validated_module_is_a_migration migration :
  _validate_migration migration = Passes →
  (∀ deps, elements (get_depends_on migration) = Some deps →
           Forall (λ x, ∃ s, x = OStr s) deps) →
  ∃ m, as_migration migration = Some m.
Proof.
  unfold _validate_migration, as_migration, get_depends_on.
  destruct (migration !! "up") as [up_|]; [|done].
  destruct (migration !! "down") as [down_|]; [|done]. simpl.
  destruct (is_collection (default (OList []) (migration !! "depends_on")))
    eqn:Hdeps; [|done].
  destruct (assert_steps up_) eqn:Hup; [|done]. intros Hdown Hnames.
  apply assert_steps_passes in Hup as [ups ->].
  apply assert_steps_passes in Hdown as [downs ->]. simpl.
  destruct (elements (default (OList []) (migration !! "depends_on")))
    as [deps|] eqn:Hel.
  - simpl. destruct (mapM_is_Some_2 as_name deps) as [names ->]; [|by eexists].
    eapply Forall_impl; [by apply Hnames|]. intros x [s ->]. by eexists.
  - by destruct (default (OList []) (migration !! "depends_on")).
Qed.

(** X19.  Every module that reads as a [Migration] passes validation. *)
Theorem migration_passes_validation migration (m : Migration DB) :
  as_migration migration = Some m →
  _validate_migration migration = Passes.
Proof.
  unfold _validate_migration, as_migration, get_depends_on.
  destruct (migration !! "up") as [up_|]; [|done].
  destruct (migration !! "down") as [down_|]; [|done]. simpl.
  destruct (as_steps up_) as [ups|] eqn:Hup; [|done]. simpl.
  destruct (as_steps down_) as [downs|] eqn:Hdown; [|done]. simpl.
  destruct (is_collection (default (OList []) (migration !! "depends_on")));
    [|done].
  intros _.
  assert (assert_steps up_ = Passes) as -> by (apply assert_steps_passes; eauto).
  apply assert_steps_passes; eauto.
Qed.

(** X20.  The module of a [Migration] passes validation and reads back as
    that [Migration]. *)
Theorem of_migration_round_trip (m : Migration DB) :
  _validate_migration (of_migration m) = Passes ∧
  as_migration (of_migration m) = Some m.
Proof.
  assert (of_migration m !! "up" = Some (OList (OStep <$> up m))) as Hup.
  { unfold of_migration. by rewrite lookup_insert_eq. }
  assert (of_migration m !! "down" = Some (OList (OStep <$> down m))) as Hdown.
  { unfold of_migration. rewrite lookup_insert_ne by done.
    by rewrite lookup_insert_eq. }
  assert (of_migration m !! "depends_on" = Some (OList (OStr <$> depends_on m)))
    as Hdeps.
  { unfold of_migration. rewrite !lookup_insert_ne by done.
    by rewrite lookup_insert_eq. }
  assert (as_migration (of_migration m) = Some m) as Hread.
  { unfold as_migration, get_depends_on, as_steps. rewrite Hup, Hdown, Hdeps.
    simpl. rewrite !mapM_fmap_Some by done. simpl.
    rewrite ?mapM_fmap_Some by done. simpl. by destruct m. }
  split; [|done]. unfold _validate_migration. rewrite Hup, Hdown, Hdeps. simpl.
  assert (∀ steps : list (Step DB), assert_steps (OList (OStep <$> steps)) = Passes)
    as Hsteps.
  { intros steps. apply assert_steps_passes. exists steps.
    unfold as_steps. simpl. by rewrite mapM_fmap_Some. }
  by rewrite !Hsteps.
Qed.

(** X21.  Validation raises [TypeError] only over an [up] or a [down]
    that cannot be iterated; with both of them lists, tuples, sets,
    frozensets or strings it passes or raises [AssertionError]. *)
Theorem validation_type_error migration :
  _validate_migration migration = Raises VTypeError →
  ∃ o, (migration !! "up" = Some o ∨ migration !! "down" = Some o) ∧
       elements o = None.
Proof.
  unfold _validate_migration.
  destruct (migration !! "up") as [up_|]; [|done].
  destruct (migration !! "down") as [down_|]; [|done].
  destruct (is_collection _); [|done].
  unfold assert_steps.
  destruct (elements up_) as [ups|] eqn:Hup; [|intros _; exists up_; auto].
  destruct (forallb is_step ups); [|done].
  destruct (elements down_) as [downs|] eqn:Hdown; [|intros _; exists down_; auto].
  by destruct (forallb is_step downs).
Qed.

End Validate.
End ValidateFacts.

(** * The further properties on concrete folders *)

Section MoreInstances.
Import Graph OrderFacts LoadFacts Journal Scenario Scenario2 Validate.
Import OrderMore LoadMore EngineMore ValidateFacts.

Lemma three_keys_distinct : NoDup ["x"; "y"; "z"].
Proof. apply (bool_decide_unpack (NoDup ["x"; "y"; "z"])). by vm_compute. Qed.

(** X3 on three keys without dependencies. *)
Lemma independent_keys_keep_insertion_order_witness :
  Order._check_for_cycles_and_order ["x"; "y"; "z"] ∅ = Some (Ok ["x"; "y"; "z"]).
Proof.
  apply independent_keys_keep_insertion_order; [exact three_keys_distinct|].
  intros k _. unfold aj_get. by rewrite lookup_empty.
Defined.

(** X4 on [chain]. *)
Lemma order_is_reachable_set_witness :
  "child" ∈ ["root"; "child"] ↔
  ∃ k, k ∈ ["child"; "root"] ∧ rtc (edge (aj (loaded chain))) k "child".
Proof.
  apply (order_is_reachable_set ["child"; "root"] (aj (loaded chain))
           ["root"; "child"]).
  vm_compute. reflexivity.
Defined.

(** X5 on the visit of [root] in [chain]. *)
Lemma visit_restores_cycle_check_set_witness :
  Order.cycle_check_set after_root = Order.cycle_check_set Order.initial_state ∧
  "root" ∈ Order.nodes_seen after_root ∧
  ∃ pre, Order.node_ordering after_root
         = pre ++ Order.node_ordering Order.initial_state ∧
         Order.nodes_seen after_root
         = list_to_set pre ∪ Order.nodes_seen Order.initial_state.
Proof.
  apply (visit_restores_cycle_check_set 2 (aj (loaded chain)) "root").
  vm_compute. reflexivity.
Defined.

(** X6 on [bad_then_latest] and on [chain]. *)
Example first_error_on_bad_then_latest :
  loading_error bad_then_latest = Some AssertionError ∧
  (load_migrations bad_then_latest no_migrations).1 = Raise AssertionError ∧
  loading_error chain = None ∧
  (load_migrations chain no_migrations).1 = Ok ().
Proof. by vm_compute. Qed.

(** X7 on [bad_then_latest]: the first file fails the validation, and
    the file named [latest] after it is never looked at. *)
Lemma loading_stops_at_first_error_witness :
  loading_error (@nil (DirEntry journal)) = None ∧
  entry_error (MkDirEntry (DB := journal) "bad" ".py" None ∅)
  = Some AssertionError ∧
  (load_migrations bad_then_latest no_migrations).1 = Raise AssertionError ∧
  load_migrations bad_then_latest no_migrations
  = load_migrations [MkDirEntry (DB := journal) "bad" ".py" None ∅] no_migrations ∧
  "bad" ∈ dict_keys (migrations (load_migrations bad_then_latest no_migrations).2).
Proof.
  assert (loading_error (@nil (DirEntry journal)) = None) as Hearlier
    by reflexivity.
  assert (entry_error (MkDirEntry (DB := journal) "bad" ".py" None ∅)
          = Some AssertionError) as Hbad by reflexivity.
  split; [exact Hearlier|]. split; [exact Hbad|].
  destruct (loading_stops_at_first_error []
              [file "latest" (migration [SQLStep CREATE_U] [])]
              (MkDirEntry (DB := journal) "bad" ".py" None ∅) AssertionError
              no_migrations Hearlier Hbad)
    as (Hr & Hcut & _ & Hkey).
  split; [exact Hr|]. split; [exact Hcut|]. apply Hkey. discriminate.
Defined.

Lemma chain_names_distinct : NoDup (discovered chain).
Proof. apply (bool_decide_unpack (NoDup (discovered chain))). by vm_compute. Qed.

(** X9 on [chain]. *)
Lemma loaded_modules_lookup_witness :
  dict_keys (migrations (loaded chain)) = discovered chain ∧
  ∀ e, e ∈ chain → skipped e = false →
       dict_get (m_name e) (migrations (loaded chain)) = Some (m_mod e).
Proof.
  apply (loaded_modules_lookup chain (loaded chain) chain_names_distinct).
  apply loaded_ok. reflexivity.
Defined.

(** X10 on [chain]. *)
Lemma adjacency_records_dependencies_witness :
  edge (aj (loaded chain)) "root" "child" ↔
  ∃ e, e ∈ chain ∧ skipped e = false ∧ m_name e = "child" ∧
       "root" ∈ depends_on (m_mod e).
Proof.
  apply (adjacency_records_dependencies chain (loaded chain)).
  apply loaded_ok. reflexivity.
Defined.

(** X11 on [chain]. *)
Lemma roots_declare_no_dependency_witness :
  "root" ∈ roots (loaded chain) ↔
  ∃ e, e ∈ chain ∧ skipped e = false ∧ m_name e = "root" ∧
       depends_on (m_mod e) = [].
Proof.
  apply (roots_declare_no_dependency chain (loaded chain)).
  apply loaded_ok. reflexivity.
Defined.

(** X13 on [single] followed by a name that was never loaded. *)
Lemma missing_migration_raises_key_error_witness :
  _execute_migrations (migrations (loaded single)) (["initial"] ++ ["ghost"])
    (connect empty)
  = (Raise (KeyError "ghost"),
     (_execute_migrations (migrations (loaded single)) ["initial"]
        (connect empty)).2).
Proof.
  apply (missing_migration_raises_key_error (migrations (loaded single))
           ["initial"] [] "ghost").
  - reflexivity.
  - vm_compute. reflexivity.
Defined.

Lemma journal_raises : driver_raises is_database_error.
Proof.
  split.
  - intros sql d e. simpl. unfold execute.
    destruct (String.prefix "FAIL" sql); [|done]. intros [= <-]. by eexists.
  - intros d e. done.
Qed.

Lemma broken_callables : callables_raise is_database_error broken.
Proof.
  intros e f args kwargs d err He Hf.
  apply list_elem_of_singleton in He as ->. vm_compute in Hf.
  by apply elem_of_cons in Hf as [?|[?|?%elem_of_nil]%elem_of_cons].
Qed.


(** X15 on [chain]. *)
Lemma main_success_applies_all_in_dependency_order_witness :
  ∃ l order,
    load_migrations chain no_migrations = (Ok (), l) ∧
    Order._check_for_cycles_and_order (dict_keys (migrations l)) (aj l)
    = Some (Ok order) ∧
    order ≡ₚ dict_keys (migrations l) ∧
    (∀ dep m, dep ∈ dict_keys (migrations l) → tc (edge (aj l)) dep m →
              before dep m order) ∧
    trace (main "latest" chain empty).2
    = prologue_events ++ run_events 1 (plan (migrations l) order)
      ++ [Execute 0 CHECKPOINT; Execute 0 DELETE_MODE].
Proof.
  apply (main_success_applies_all_in_dependency_order "latest" chain empty).
  vm_compute. reflexivity.
Defined.

Lemma chain_same_files : Forall2 same_file chain chain_with_down.
Proof. repeat constructor. Qed.

(** X16 on [chain] with and without [down] steps. *)
Lemma down_steps_are_only_validated_witness :
  Forall2 same_file chain chain_with_down ∧
  main "latest" chain empty = main "latest" chain_with_down empty.
Proof.
  split; [exact chain_same_files|].
  apply down_steps_are_only_validated. exact chain_same_files.
Defined.

(** X17 on dependencies that are numbers. *)
Lemma validation_ignores_dependencies_witness :
  _validate_migration (<["depends_on" := numbered_dependencies]> up_is_number)
  = _validate_migration (delete "depends_on" up_is_number).
Proof. apply validation_ignores_dependencies. reflexivity. Defined.

(** X18 and X19 on the module of [initial]. *)
Lemma validated_module_is_a_migration_witness :
  ∃ m, as_migration (of_migration initial) = Some m.
Proof.
  apply validated_module_is_a_migration.
  - vm_compute. reflexivity.
  - intros deps Hdeps. vm_compute in Hdeps. injection Hdeps as <-. constructor.
Defined.

Lemma migration_passes_validation_witness :
  _validate_migration (of_migration initial) = Passes.
Proof.
  apply (migration_passes_validation (of_migration initial) initial).
  vm_compute. reflexivity.
Defined.

(** X21 on a module whose [up] is a number. *)
Lemma validation_type_error_witness :
  ∃ o, (up_is_number !! "up" = Some o ∨ up_is_number !! "down" = Some o) ∧
       elements o = None.
Proof. apply validation_type_error. vm_compute. reflexivity. Defined.

End MoreInstances.
